(** * ulog: box rendering and structured-value rendering

    A shallow embedding of the Go package [ulog] (the box logger and
    log_dataStructures.go) together with the properties its
    specification states about it.

    Go strings are byte sequences, so they are modelled by [string]
    (one [ascii] per byte); the box-drawing constants are UTF-8 and
    therefore three bytes each.  Go's [int] is modelled by [Z] with the
    64-bit wrap-around written out.  A run-time panic is an explicit
    outcome of the [result] type. *)

From Stdlib Require Import ZArith Lia List Bool Ascii String.
From Stdlib Require Import Permutation Sorted Mergesort DecimalString.
Import ListNotations.

Local Open Scope string_scope.
Local Open Scope Z_scope.

(* ------------------------------------------------------------------ *)
(** ** The parts of the Go language and library the package relies on *)

Module Go.

(** Outcome of a computation that may panic. *)
Inductive result (A : Type) : Type :=
| Ok (a : A)
| Panic (reason : string).
Arguments Ok {A} a.
Arguments Panic {A} reason.

Definition bind {A B : Type} (r : result A) (k : A -> result B) : result B :=
  match r with
  | Ok a => k a
  | Panic why => Panic why
  end.

(** [int] on a 64-bit platform. *)
Definition maxInt : Z := 2 ^ 63 - 1.
Definition minInt : Z := - 2 ^ 63.
Definition wrap (z : Z) : Z := (z + 2 ^ 63) mod 2 ^ 64 - 2 ^ 63.
Definition add (a b : Z) : Z := wrap (a + b).
Definition sub (a b : Z) : Z := wrap (a - b).
Definition mul (a b : Z) : Z := wrap (a * b).

(** [len(s)]: the number of bytes. *)
Definition len (s : string) : Z := Z.of_nat (String.length s).

Fixpoint replicate (s : string) (n : nat) : string :=
  match n with
  | O => ""
  | S k => s ++ replicate s k
  end.

(** [strings.Repeat]: panics on a negative count and when the result
    would not fit an [int].  That the runtime or the machine cannot hold
    a string as long as asked for is not part of this model: a result
    [Ok] stands for the string the call returns when its memory is
    granted. *)
Definition Repeat (s : string) (count : Z) : result string :=
  if count <? 0 then Panic "strings: negative Repeat count"
  else if maxInt <? len s * count then Panic "strings: Repeat output length overflow"
  else Ok (replicate s (Z.to_nat count)).

(** [strings.Split(s, sep)] for a one-byte separator: the pieces
    between the separators, one more than there are separators. *)
Fixpoint Split (s : string) (sep : ascii) : list string :=
  match s with
  | EmptyString => [EmptyString]
  | String c rest =>
      if Ascii.eqb c sep then EmptyString :: Split rest sep
      else match Split rest sep with
           | [] => [String c EmptyString]
           | piece :: pieces => String c piece :: pieces
           end
  end.

(** Size in bytes of the UTF-8 sequence at the head of [s], following
    [utf8.DecodeRuneInString]; [None] when the head is not a valid
    encoding (the decoder then yields RuneError with width 1). *)
Definition byteIn (lo hi : N) (c : ascii) : bool :=
  (lo <=? N_of_ascii c)%N && (N_of_ascii c <=? hi)%N.

Definition cont (c : ascii) : bool := byteIn 128 191 c.

Definition runeWidth (s : string) : option nat :=
  match s with
  | EmptyString => None
  | String c0 t0 =>
      let b0 := N_of_ascii c0 in
      if (b0 <? 128)%N then Some 1%nat
      else match t0 with
      | EmptyString => None
      | String c1 t1 =>
          if byteIn 194 223 c0 then (if cont c1 then Some 2%nat else None)
          else match t1 with
          | EmptyString => None
          | String c2 t2 =>
              let second3 :=
                if (b0 =? 224)%N then byteIn 160 191 c1
                else if (b0 =? 237)%N then byteIn 128 159 c1
                else cont c1 in
              if byteIn 224 239 c0 then
                (if second3 && cont c2 then Some 3%nat else None)
              else match t2 with
              | EmptyString => None
              | String c3 _ =>
                  let second4 :=
                    if (b0 =? 240)%N then byteIn 144 191 c1
                    else if (b0 =? 244)%N then byteIn 128 143 c1
                    else cont c1 in
                  if byteIn 240 244 c0 && second4 && cont c2 && cont c3
                  then Some 4%nat else None
              end
          end
      end
  end.

Fixpoint take (n : nat) (s : string) : string :=
  match n, s with
  | S k, String c rest => String c (take k rest)
  | _, _ => ""
  end.

Fixpoint drop (n : nat) (s : string) : string :=
  match n, s with
  | S k, String _ rest => drop k rest
  | _, _ => s
  end.

(** [strings.SplitN(s, "", 2)]: the empty separator splits after the
    first UTF-8 sequence (an invalid byte is sliced off on its own); a
    string of a single sequence stays whole and the empty string gives
    no piece. *)
Definition SplitN_empty_2 (s : string) : list string :=
  match s with
  | EmptyString => []
  | String _ _ =>
      let size := match runeWidth s with Some w => w | None => 1%nat end in
      match drop size s with
      | EmptyString => [s]
      | rest => [take size s; rest]
      end
  end.

(** Slice indexing [a[i]]. *)
Definition index (a : list string) (i : nat) : result string :=
  match nth_error a i with
  | Some x => Ok x
  | None => Panic "index out of range"
  end.

(** A wall-clock reading and [Format("15:04:05")]. *)
Record Time : Type := { hour : nat; minute : nat; second : nat }.

Definition digit (n : nat) : ascii := ascii_of_nat (48 + n mod 10).

Definition twoDigits (n : nat) : string :=
  String (digit (n / 10)) (String (digit n) "").

Definition Format_150405 (t : Time) : string :=
  twoDigits (hour t) ++ ":" ++ twoDigits (minute t) ++ ":" ++ twoDigits (second t).

(** Decimal text of an integer, as the verbs [%d] and [%v] print it. *)
Definition decimal (n : Z) : string := NilZero.string_of_int (Z.to_int n).

(** The number of characters of UTF-8 text: every byte that is not a
    continuation byte starts one. *)
Fixpoint charCount (s : string) : Z :=
  match s with
  | EmptyString => 0
  | String c rest => (if cont c then 0 else 1) + charCount rest
  end.

End Go.

Import Go.

Declare Scope go_scope.
Notation "x <- e ;; k" := (bind e (fun x => k))
  (at level 61, e at next level, right associativity) : go_scope.
Local Open Scope go_scope.

(* ------------------------------------------------------------------ *)
(** ** The logger and its box renderer *)

(** Box drawing characters *)
Definition topLeft : string := "╭".
Definition topRight : string := "╮".
Definition bottomLeft : string := "╰".
Definition bottomRight : string := "╯".
Definition horizontal : string := "─".
Definition vertical : string := "│".

Definition newline : ascii := "010"%char.
Definition nl : string := String newline "".

(** Logger is a utility for logging with box-style outputs and colors *)
Record Logger : Type := { showTimestamp : bool; padding : Z }.

(** NewLogger creates a new Logger instance *)
Definition NewLogger (showTimestamp : bool) (padding : Z) : Logger :=
  let padding := if padding <? 1 then 1 else padding in
  {| showTimestamp := showTimestamp; padding := padding |}.

(** Default logger instance with default settings *)
Definition DefaultLogger : Logger := NewLogger true 1.

(** The six log categories, one method each. *)
Inductive Category : Type :=
| CWarning | CMessage | CInfo | CError | CSuccess | COngoing.

(** The text a logging call hands to standard output: [fmt.Println]. *)
Definition Println (s : string) : string := s ++ nl.

(** The optional tag of the variadic methods: the first one given. *)
Definition tagStr (tag : list string) : string :=
  match tag with
  | [] => ""
  | t :: _ => t
  end.

Section Box.

(** Colors for different log levels: the styling functions of the
    colour library, taken as they come. *)
Variables warningColor messageColor infoColor errorColor
          successColor ongoingColor tagColor : string -> string.

(** The first loop of formatBox: the longest line. *)
Definition longest (lines : list string) : Z :=
  fold_left (fun maxLength line =>
               if len line >? maxLength then len line else maxLength)
            lines 0.

(** The width formatBox settles on before it adds the padding. *)
Definition contentWidth (message tag : string) : Z :=
  let maxLength := longest (Split message newline) in
  if negb (tag =? "")%string then
    if add (len tag) 4 >? maxLength then add (len tag) 4 else maxLength
  else maxLength.

(** One message line of the box. *)
Definition messageLine (l : Logger) (maxLength : Z) (line : string) : result string :=
  pad <- Repeat " " (padding l) ;;
  let paddedLine := vertical ++ pad ++ line in
  fill <- Repeat " " (sub maxLength (len line)) ;;
  let paddedLine := paddedLine ++ fill ++ vertical in
  Ok paddedLine.

(** formatBox creates a box around the given message with the
    specified color function; [now] is the clock reading it takes. *)
Definition formatBox (l : Logger) (message tag : string)
           (colorFunc : string -> string) (now : Time) : result string :=
  let lines := Split message newline in
  let maxLength := contentWidth message tag in
  let maxLength := add maxLength (mul (padding l) 2) in
  let result := "" in
  rule <- Repeat horizontal maxLength ;;
  let topBorder := topLeft ++ rule ++ topRight in
  result <-
    (if negb (tag =? "")%string then
       let tagDisplay := " " ++ tagColor tag ++ " " in
       let topBorderParts := SplitN_empty_2 topBorder in
       part0 <- index topBorderParts 0 ;;
       part1 <- index topBorderParts 1 ;;
       Ok (result ++ colorFunc (part0 ++ tagDisplay ++ part1) ++ nl)
     else Ok (result ++ colorFunc topBorder ++ nl)) ;;
  result <-
    (if showTimestamp l then
       let timestamp := Format_150405 now in
       pad <- Repeat " " (padding l) ;;
       let paddedLine := vertical ++ pad ++ timestamp in
       fill <- Repeat " " (sub maxLength (len timestamp)) ;;
       let paddedLine := paddedLine ++ fill ++ vertical in
       Ok (result ++ colorFunc paddedLine ++ nl)
     else Ok result) ;;
  result <-
    fold_left (fun acc line =>
                 result <- acc ;;
                 paddedLine <- messageLine l maxLength line ;;
                 Ok (result ++ colorFunc paddedLine ++ nl))
              lines (Ok result) ;;
  rule <- Repeat horizontal maxLength ;;
  Ok (result ++ colorFunc (bottomLeft ++ rule ++ bottomRight)).

Definition categoryColor (c : Category) : string -> string :=
  match c with
  | CWarning => warningColor
  | CMessage => messageColor
  | CInfo => infoColor
  | CError => errorColor
  | CSuccess => successColor
  | COngoing => ongoingColor
  end.

(** The Logger methods: each returns what it prints, or panics. *)
Definition Logger_Warning (l : Logger) (message : string) (tag : list string)
           (now : Time) : result string :=
  let tagStr := tagStr tag in
  box <- formatBox l message tagStr warningColor now ;; Ok (Println box).

Definition Logger_Message (l : Logger) (message : string) (tag : list string)
           (now : Time) : result string :=
  let tagStr := tagStr tag in
  box <- formatBox l message tagStr messageColor now ;; Ok (Println box).

Definition Logger_Info (l : Logger) (message : string) (tag : list string)
           (now : Time) : result string :=
  let tagStr := tagStr tag in
  box <- formatBox l message tagStr infoColor now ;; Ok (Println box).

Definition Logger_Error (l : Logger) (message : string) (tag : list string)
           (now : Time) : result string :=
  let tagStr := tagStr tag in
  box <- formatBox l message tagStr errorColor now ;; Ok (Println box).

Definition Logger_Success (l : Logger) (message : string) (tag : list string)
           (now : Time) : result string :=
  let tagStr := tagStr tag in
  box <- formatBox l message tagStr successColor now ;; Ok (Println box).

Definition Logger_Ongoing (l : Logger) (message : string) (tag : list string)
           (now : Time) : result string :=
  let tagStr := tagStr tag in
  box <- formatBox l message tagStr ongoingColor now ;; Ok (Println box).

(** Global convenience functions that use the default logger *)
Definition Warning (message : string) (tag : list string) (now : Time) :=
  Logger_Warning DefaultLogger message tag now.
Definition Message (message : string) (tag : list string) (now : Time) :=
  Logger_Message DefaultLogger message tag now.
Definition Info (message : string) (tag : list string) (now : Time) :=
  Logger_Info DefaultLogger message tag now.
Definition Error (message : string) (tag : list string) (now : Time) :=
  Logger_Error DefaultLogger message tag now.
Definition Success (message : string) (tag : list string) (now : Time) :=
  Logger_Success DefaultLogger message tag now.
Definition Ongoing (message : string) (tag : list string) (now : Time) :=
  Logger_Ongoing DefaultLogger message tag now.

End Box.

(* ------------------------------------------------------------------ *)
(** ** Structured values (log_dataStructures.go) *)

(** The dynamic values ([interface{}], that is [any]) the renderers
    dispatch on: text, integers ([int], [int64]), floating-point numbers
    ([float64], [float32]), booleans, the nil interface,
    [map[string]interface{}] and [[]interface{}].  The renderers use a
    floating-point number only by printing it with the verb [%v], so it
    is given by the text [%v] prints for it (as [3.14] or [1e+06]).

    A Go map has no order of its own: every [range] over it visits the
    entries in an order the runtime picks, and the order may differ from
    one loop to the next.  A map is therefore given as the list of its
    entries in the order the loop at hand visits them (keys distinct),
    and one Go map is all the permutations of such a list. *)
#[local] Unset Elimination Schemes.
Inductive any : Type :=
| VString (s : string)
| VInt (n : Z)
| VFloat (shown : string)
| VBool (b : bool)
| VNil
| VMap (m : list (string * any))
| VSlice (items : list any).
#[local] Set Elimination Schemes.

Definition gomap : Type := list (string * any).

Definition keys (m : gomap) : list string := map fst m.

(** [m[k]]: the value stored under [k], nil when there is none. *)
Fixpoint lookup (k : string) (m : gomap) : any :=
  match m with
  | [] => VNil
  | (k', v) :: rest => if (k =? k')%string then v else lookup k rest
  end.

(** [sort.Strings]: byte-wise ascending order. *)
Module StringOrder <: Orders.TotalLeBool.
Definition t : Type := string.
Definition leb : t -> t -> bool := String.leb.
Lemma leb_total (a b : t) : leb a b = true \/ leb b a = true.
Proof. apply String.leb_total. Qed.
End StringOrder.

Module SortStrings := Sort StringOrder.

Definition sortStrings (a : list string) : list string := SortStrings.sort a.

(** Pieces of output written one after the other. *)
Definition catAll (pieces : list string) : string := fold_right append "" pieces.

(** Text rendered per key, fetched by key. *)
Fixpoint textOf (k : string) (shown : list (string * string)) : string :=
  match shown with
  | [] => ""
  | (k', text) :: rest => if (k =? k')%string then text else textOf k rest
  end.

Definition quote : string := String (ascii_of_nat 34) "".

(** The verb [%v] of package fmt on these values: text as it is,
    integers in decimal, [true]/[false], and maps printed with their
    keys sorted. *)
Fixpoint fmtV (v : any) : string :=
  match v with
  | VString s => s
  | VInt n => decimal n
  | VFloat shown => shown
  | VBool b => if b then "true" else "false"
  | VNil => "<nil>"
  | VMap m =>
      let shown := map (fun '(k, x) => (k, k ++ ":" ++ fmtV x)) m in
      "map[" ++ String.concat " " (map (fun k => textOf k shown) (sortStrings (keys m))) ++ "]"
  | VSlice items => "[" ++ String.concat " " (map fmtV items) ++ "]"
  end.

(** The body of MapAsPrettyString, over the printer of the values. *)
Definition prettyMap (ValueAsString : any -> string) (m : gomap)
           (beforeMessage : list string) : string :=
  let result := "{" in
  let first := true in
  let '(result, first) :=
    fold_left (fun '(result, first) '(k, v) =>
                 let result := if negb first then result ++ ", " else result in
                 let first := false in
                 (result ++ (k ++ ": " ++ ValueAsString v), first))
              m (result, first) in
  let result := result ++ "}" in
  match beforeMessage with
  | before :: _ => before ++ " " ++ result
  | [] => result
  end.

(** ValueAsString converts a value of any type to its string
    representation. *)
Fixpoint ValueAsString (v : any) : string :=
  match v with
  | VString val => quote ++ val ++ quote
  | VInt _ | VFloat _ | VBool _ => fmtV v
  | VMap val => prettyMap ValueAsString val []
  | _ => fmtV v
  end.

(** MapAsPrettyString converts a map to a pretty string representation;
    [m] lists the entries in the order its [range] loop visits them. *)
Definition MapAsPrettyString (m : gomap) (beforeMessage : list string) : string :=
  prettyMap ValueAsString m beforeMessage.

(** ListAsPrettyString converts a slice of strings to a pretty string
    representation. *)
Definition ListAsPrettyString (list beforeMessage : Datatypes.list string) : string :=
  let result := "[" in
  let first := true in
  let '(result, first) :=
    fold_left (fun '(result, first) v =>
                 let result := if negb first then result ++ ", " else result in
                 let first := false in
                 (result ++ (quote ++ v ++ quote), first))
              list (result, first) in
  let result := result ++ "]" in
  match beforeMessage with
  | before :: _ => before ++ " " ++ result
  | [] => result
  end.

(** ListAsPrettyStringWithIndex: the same with 1-based indices. *)
Definition ListAsPrettyStringWithIndex (list beforeMessage : Datatypes.list string) : string :=
  let result := "[" in
  let first := true in
  let '(result, first, _) :=
    fold_left (fun '(result, first, i) v =>
                 let result := if negb first then result ++ ", " else result in
                 let first := false in
                 (result ++ (decimal (i + 1) ++ ": " ++ quote ++ v ++ quote), first, i + 1))
              list (result, first, 0) in
  let result := result ++ "]" in
  match beforeMessage with
  | before :: _ => before ++ " " ++ result
  | [] => result
  end.

(** The lines PrintMapWithIndent writes for the keys of a map, given the
    text its loop body writes for each key: the keys are collected,
    sorted, and the text of each key is written in that order.  The
    recursion of [printKey] below descends into the entries of the map
    themselves, so the text per entry is prepared first and fetched by
    key here; lemma [PrintMapWithIndent_loop] gives the loop as the
    source has it, over the sorted keys and [m[k]]. *)
Definition inKeyOrder (written : list (string * string)) : string :=
  let keys := sortStrings (map fst written) in
  catAll (map (fun k => textOf k written) keys).

(** The body of the loop of PrintMapWithIndent for key [k] holding [v]:
    the text it writes to standard output. *)
Fixpoint printKey (k : string) (v : any) (indent : string) {struct v} : string :=
  match v with
  | VMap value =>
      indent ++ k ++ ": {" ++ nl
      ++ inKeyOrder (map (fun '(k', v') => (k', printKey k' v' (indent ++ "  "))) value)
      ++ indent ++ "}" ++ nl
  | VSlice value =>
      indent ++ k ++ ": [" ++ nl
      ++ (fix items (i : Z) (rest : list any) {struct rest} : string :=
            match rest with
            | [] => ""
            | item :: rest' =>
                match item with
                | VMap nestedMap =>
                    indent ++ "  [" ++ decimal i ++ "]: {" ++ nl
                    ++ inKeyOrder (map (fun '(k', v') =>
                                          (k', printKey k' v' (indent ++ "    "))) nestedMap)
                    ++ indent ++ "  }" ++ nl
                | _ => indent ++ "  [" ++ decimal i ++ "]: " ++ fmtV item ++ nl
                end ++ items (i + 1) rest'
            end) 0 value
      ++ indent ++ "]" ++ nl
  | _ => indent ++ k ++ ": " ++ fmtV v ++ nl
  end.

(** PrintMapWithIndent prints a map with proper indentation for nested
    structures; the result is the text written to standard output. *)
Definition PrintMapWithIndent (m : gomap) (indent : string) : string :=
  inKeyOrder (map (fun '(k, v) => (k, printKey k v indent)) m).

(** A message without a line break is one line. *)
Fixpoint singleLine (s : string) : bool :=
  match s with
  | EmptyString => true
  | String c rest => negb (Ascii.eqb c newline) && singleLine rest
  end.

(** The interior width of the box in unbounded arithmetic, and the
    condition under which the [int] computations of formatBox stay
    within range. *)
Definition interiorWidth (l : Logger) (message tag : string) : Z :=
  contentWidth message tag + 2 * padding l.

Definition fits (l : Logger) (message tag : string) : Prop :=
  3 * (Z.max (longest (Split message newline)) (len tag + 4) + 2 * padding l) <= maxInt.

(** The undecorated text of the parts of a box of interior width
    [width]: a horizontal rule, and a row holding [text]. *)
Definition rule (width : Z) : string := replicate horizontal (Z.to_nat width).

Definition boxRow (l : Logger) (width : Z) (text : string) : string :=
  vertical ++ replicate " " (Z.to_nat (padding l)) ++ text
  ++ replicate " " (Z.to_nat (width - len text)) ++ vertical.

(** A clock reading and plain styling, for concrete runs. *)
Definition noon : Time := {| hour := 12; minute := 0; second := 0 |}.
Definition plain (s : string) : string := s.

(** A string between two double quotes. *)
Definition quoted (v : string) : string := quote ++ v ++ quote.

(** Byte-wise order on keys. *)
Definition byteLe (a b : string) : Prop := is_true (String.leb a b).

(** One element of a sequence as PrintMapWithIndent writes it under
    index [i]. *)
Definition printItem (i : Z) (item : any) (indent : string) : string :=
  match item with
  | VMap nestedMap =>
      indent ++ "  [" ++ decimal i ++ "]: {" ++ nl
      ++ PrintMapWithIndent nestedMap (indent ++ "    ")
      ++ indent ++ "  }" ++ nl
  | _ => indent ++ "  [" ++ decimal i ++ "]: " ++ fmtV item ++ nl
  end.

(** Two values that are the same Go value: maps with the same keys
    holding the same values, whatever the order their entries are
    listed in. *)
Inductive sameValue : any -> any -> Prop :=
| same_string (s : string) : sameValue (VString s) (VString s)
| same_int (n : Z) : sameValue (VInt n) (VInt n)
| same_float (shown : string) : sameValue (VFloat shown) (VFloat shown)
| same_bool (b : bool) : sameValue (VBool b) (VBool b)
| same_nil : sameValue VNil VNil
| same_map (m m' : gomap) :
    NoDup (keys m) -> Permutation (keys m) (keys m') ->
    (forall k, In k (keys m) -> sameValue (lookup k m) (lookup k m')) ->
    sameValue (VMap m) (VMap m')
| same_slice (items items' : list any) :
    List.length items = List.length items' ->
    (forall i, (i < List.length items)%nat ->
               sameValue (nth i items VNil) (nth i items' VNil)) ->
    sameValue (VSlice items) (VSlice items').

(** The map of the documentation, [{"name": "John", "age": 30}], as two
    loops over it may visit it. *)
Definition johnNameFirst : gomap := [("name", VString "John"); ("age", VInt 30)].
Definition johnAgeFirst : gomap := [("age", VInt 30); ("name", VString "John")].

(** The map of the example of PrintMapWithIndent, in two entry orders. *)
Definition userExample : gomap :=
  [("user", VMap [("name", VString "John");
                  ("scores", VSlice [VInt 95; VInt 87; VInt 92])])].
Definition userExampleReordered : gomap :=
  [("user", VMap [("scores", VSlice [VInt 95; VInt 87; VInt 92]);
                  ("name", VString "John")])].

(* ------------------------------------------------------------------ *)
(** ** Further functions of the package and notions used to state facts
    about them *)

(** The Logger method and the package-level function of a category. *)
Section Dispatch.

Variables warningColor messageColor infoColor errorColor
          successColor ongoingColor tagColor : string -> string.

Definition Logger_method (c : Category) :
  Logger -> string -> list string -> Time -> result string :=
  match c with
  | CWarning => Logger_Warning warningColor tagColor
  | CMessage => Logger_Message messageColor tagColor
  | CInfo => Logger_Info infoColor tagColor
  | CError => Logger_Error errorColor tagColor
  | CSuccess => Logger_Success successColor tagColor
  | COngoing => Logger_Ongoing ongoingColor tagColor
  end.

Definition package_function (c : Category) :
  string -> list string -> Time -> result string :=
  match c with
  | CWarning => Warning warningColor tagColor
  | CMessage => Message messageColor tagColor
  | CInfo => Info infoColor tagColor
  | CError => Error errorColor tagColor
  | CSuccess => Success successColor tagColor
  | COngoing => Ongoing ongoingColor tagColor
  end.

End Dispatch.

(** The rows of a box, top to bottom, before styling. *)
Definition boxRows (l : Logger) (message tag : string) (now : Time) : list string :=
  (if showTimestamp l
   then [boxRow l (interiorWidth l message tag) (Format_150405 now)] else [])
  ++ map (boxRow l (interiorWidth l message tag)) (Split message newline).

(** The body of the loop of PrintMap for [key] holding [value]: a nested
    map is printed by the recursive call between a brace line and a
    closing brace, anything else with [%v]; nothing is indented. *)
Fixpoint printMapEntry (key : string) (value : any) {struct value} : string :=
  match value with
  | VMap v =>
      key ++ ": {" ++ nl
      ++ catAll (map (fun '(key', value') => printMapEntry key' value') v)
      ++ "}" ++ nl
  | _ => key ++ ": " ++ fmtV value ++ nl
  end.

(** PrintMap prints the contents of a map to the standard output; [m]
    lists the entries in the order the loop visits them, and the result
    is the text written. *)
Definition PrintMap (m : gomap) : string :=
  catAll (map (fun '(key, value) => printMapEntry key value) m).

(** PrintList prints a list of strings to the standard output with
    1-based indexing; the result is the text written. *)
Definition PrintList (list : Datatypes.list string) : string :=
  fst (fold_left (fun '(written, i) item =>
                    (written ++ (decimal (i + 1) ++ ": " ++ item ++ nl), i + 1))
                 list ("", 0)).

(** A map all of whose values are scalars. *)
Definition scalar (v : any) : Prop :=
  match v with
  | VMap _ | VSlice _ => False
  | _ => True
  end.

(** ReadableTime on [int64] seconds; [/] and [%] truncate towards
    zero. *)
Definition ReadableTime (seconds : Z) : string :=
  if seconds <? 60 then decimal seconds ++ " seconds"
  else if seconds <? 3600 then
    let minutes := Z.quot seconds 60 in
    decimal minutes ++ " minutes"
  else if seconds <? 86400 then
    let hours := Z.quot seconds 3600 in
    let minutes := Z.quot (Z.rem seconds 3600) 60 in
    decimal hours ++ " hours " ++ decimal minutes ++ " minutes"
  else
    let days := Z.quot seconds 86400 in
    let hours := Z.quot (Z.rem seconds 86400) 3600 in
    let minutes := Z.quot (Z.rem seconds 3600) 60 in
    decimal days ++ " days " ++ decimal hours ++ " hours "
    ++ decimal minutes ++ " minutes".

(** The loop of ReadableCount over the bytes of [str] (decimal text is
    ASCII, so the loop meets one byte per character and [i] counts
    them). *)
Definition separateThousands (str : string) : string :=
  let result := "" in
  fst (fold_left (fun '(result, i) char =>
                    let result :=
                      if (i >? 0) && (Z.rem (len str - i) 3 =? 0)
                      then result ++ "," else result in
                    (result ++ String char "", i + 1))
                 (list_ascii_of_string str) (result, 0)).

(** ReadableCount formats large numbers with comma separators *)
Definition ReadableCount (count : Z) : string :=
  let str := decimal count in
  if count <? 1000 then str
  else separateThousands str.

(** The text without its commas. *)
Fixpoint withoutCommas (s : string) : string :=
  match s with
  | EmptyString => EmptyString
  | String c rest =>
      if Ascii.eqb c ","%char then withoutCommas rest
      else String c (withoutCommas rest)
  end.

Section FileSizes.

(** [fmt.Sprintf("%.2f", float64(size)/divisor)], the floating-point
    formatting of the library, taken as it comes. *)
Variable twoDecimals : Z -> Z -> string.

Definition ReadableFileSize (size : Z) : string :=
  if size <? 1024 then decimal size ++ " B"
  else if size <? 1024 * 1024 then twoDecimals size 1024 ++ " KB"
  else if size <? 1024 * 1024 * 1024 then twoDecimals size (1024 * 1024) ++ " MB"
  else if size <? 1024 * 1024 * 1024 * 1024
       then twoDecimals size (1024 * 1024 * 1024) ++ " GB"
  else twoDecimals size (1024 * 1024 * 1024 * 1024) ++ " TB".

(** ReadableMemoryUsage formats memory usage in a human-readable format;
    [bytes] is a [uint64] and [int64(bytes)] reinterprets its bits. *)
Definition ReadableMemoryUsage (bytes : Z) : string :=
  ReadableFileSize (wrap bytes).

End FileSizes.
(** Text made of decimal digits and the minus sign only. *)
Definition digitOrMinus (c : ascii) : bool :=
  byteIn 48 57 c || Ascii.eqb c "-"%char.

Fixpoint allChars (p : ascii -> bool) (s : string) : bool :=
  match s with
  | EmptyString => true
  | String c rest => p c && allChars p rest
  end.

(** What the loop of ReadableCount writes for the characters still to
    come: a comma goes in front of a character, the first one apart,
    when the number of characters from it to the end is a multiple of
    three. *)
Fixpoint separated (first : bool) (chars : Datatypes.list ascii) : Datatypes.list ascii :=
  match chars with
  | [] => []
  | c :: rest =>
      (if negb first && (List.length chars mod 3 =? 0)%nat then [","%char] else [])
      ++ c :: separated false rest
  end.

(** Values whose keys and strings hold no line break, at any depth. *)
Fixpoint plainText (v : any) : bool :=
  match v with
  | VString s => singleLine s
  | VFloat shown => singleLine shown
  | VMap m => forallb (fun '(k, x) => singleLine k && plainText x) m
  | VSlice items => forallb plainText items
  | _ => true
  end.

(** [text] with [indent] put in front of each of its lines;
    [lineStart] tells whether [text] begins at the start of a line. *)
Fixpoint indentFrom (lineStart : bool) (indent text : string) : string :=
  match text with
  | EmptyString => EmptyString
  | String c rest =>
      (if lineStart then indent else "")
      ++ String c (indentFrom (Ascii.eqb c newline) indent rest)
  end.

Definition indentLines (indent text : string) : string :=
  indentFrom true indent text.

(** Whether the position after [text] is the start of a line. *)
Fixpoint atLineStart (lineStart : bool) (text : string) : bool :=
  match text with
  | EmptyString => lineStart
  | String c rest => atLineStart (Ascii.eqb c newline) rest
  end.

(** A string that holds no double quote. *)
Definition quoteFree (s : string) : bool :=
  allChars (fun c => negb (Ascii.eqb c (ascii_of_nat 34))) s.

(* ------------------------------------------------------------------ *)
(** ** Facts about strings and machine integers *)

Lemma append_nil_r (s : string) : s ++ "" = s.
Proof. induction s as [|c s IH]; simpl; [reflexivity | now rewrite IH]. Qed.

Lemma append_assoc (a b c : string) : (a ++ b) ++ c = a ++ b ++ c.
Proof. induction a as [|x a IH]; simpl; [reflexivity | now rewrite IH]. Qed.

Lemma len_append (a b : string) : len (a ++ b) = len a + len b.
Proof.
  unfold len. induction a as [|x a IH]; simpl String.length.
  - reflexivity.
  - rewrite !Nat2Z.inj_succ. simpl in IH. lia.
Qed.

Lemma len_nonneg (s : string) : 0 <= len s.
Proof. unfold len. lia. Qed.

Lemma charCount_append (a b : string) :
  charCount (a ++ b) = charCount a + charCount b.
Proof. induction a as [|x a IH]; simpl; [reflexivity | rewrite IH; lia]. Qed.

Lemma charCount_nonneg (s : string) : 0 <= charCount s.
Proof. induction s as [|c s IH]; simpl; [lia | destruct (cont c); lia]. Qed.

Lemma charCount_replicate (s : string) (n : nat) :
  charCount (replicate s n) = Z.of_nat n * charCount s.
Proof.
  induction n as [|n IH]; [reflexivity|].
  cbn [replicate]. rewrite charCount_append, IH. lia.
Qed.

Lemma len_replicate (s : string) (n : nat) :
  len (replicate s n) = Z.of_nat n * len s.
Proof.
  induction n as [|n IH]; [reflexivity|].
  cbn [replicate]. rewrite len_append, IH. lia.
Qed.

Lemma wrap_small (z : Z) : minInt <= z <= maxInt -> wrap z = z.
Proof.
  unfold wrap, minInt, maxInt. intros H.
  rewrite Z.mod_small; lia.
Qed.

Lemma Repeat_ok (s : string) (count : Z) :
  0 <= count -> len s * count <= maxInt ->
  Repeat s count = Ok (replicate s (Z.to_nat count)).
Proof.
  intros H0 H1. unfold Repeat.
  destruct (Z.ltb_spec count 0); [lia|].
  destruct (Z.ltb_spec maxInt (len s * count)); [lia|]. reflexivity.
Qed.

Lemma Repeat_negative (s : string) (count : Z) :
  count < 0 -> Repeat s count = Panic "strings: negative Repeat count".
Proof.
  intros H. unfold Repeat. destruct (Z.ltb_spec count 0); [reflexivity | lia].
Qed.

Lemma len_Format (now : Time) : len (Format_150405 now) = 8.
Proof. reflexivity. Qed.

Lemma Split_singleLine (s : string) :
  singleLine s = true -> Split s newline = [s].
Proof.
  induction s as [|c s IH]; simpl; [reflexivity|].
  intros H. apply andb_true_iff in H as [Hc Hs].
  destruct (Ascii.eqb c newline); [discriminate|].
  now rewrite (IH Hs).
Qed.

(** The loop that finds the longest line computes the maximum. *)
Lemma longest_from (lines : list string) (start : Z) :
  let found := fold_left (fun maxLength line =>
                            if len line >? maxLength then len line else maxLength)
                         lines start in
  start <= found /\ (forall line, In line lines -> len line <= found) /\
  (found = start \/ exists line, In line lines /\ found = len line).
Proof.
  revert start. induction lines as [|x lines IH]; intros start; cbn zeta.
  - simpl. repeat split; [lia | tauto | now left].
  - simpl fold_left.
    specialize (IH (if len x >? start then len x else start)).
    cbn zeta in IH. destruct IH as (Hge & Hall & Hex).
    destruct (Z.gtb_spec (len x) start) as [Hgt|Hle].
    + repeat split.
      * lia.
      * intros line [<-|Hin]; [lia | now apply Hall].
      * right. destruct Hex as [->|(line & Hin & ->)].
        -- exists x. split; [now left | reflexivity].
        -- exists line. split; [now right | reflexivity].
    + repeat split.
      * lia.
      * intros line [<-|Hin]; [lia | now apply Hall].
      * destruct Hex as [->|(line & Hin & ->)]; [now left|].
        right. exists line. split; [now right | reflexivity].
Qed.

Lemma longest_nonneg (lines : list string) : 0 <= longest lines.
Proof. apply (longest_from lines 0). Qed.

Lemma longest_ge (lines : list string) (line : string) :
  In line lines -> len line <= longest lines.
Proof. apply (longest_from lines 0). Qed.

Lemma longest_one (line : string) : longest [line] = len line.
Proof.
  unfold longest. simpl. pose proof (len_nonneg line).
  destruct (Z.gtb_spec (len line) 0); lia.
Qed.

(* ------------------------------------------------------------------ *)
(** ** The box renderer *)

Section BoxFacts.

Variable tagColor : string -> string.

Lemma contentWidth_max (message tag : string) :
  len tag + 4 <= maxInt ->
  contentWidth message tag =
    if (tag =? "")%string then longest (Split message newline)
    else Z.max (longest (Split message newline)) (len tag + 4).
Proof.
  intros Hfit. unfold contentWidth, add.
  pose proof (len_nonneg tag). unfold maxInt in Hfit.
  rewrite wrap_small by (unfold minInt, maxInt; lia).
  destruct (tag =? "")%string; simpl; [reflexivity|].
  destruct (Z.gtb_spec (len tag + 4) (longest (Split message newline))); lia.
Qed.

Lemma contentWidth_bounds (l : Logger) (message tag : string) :
  fits l message tag ->
  0 <= contentWidth message tag <= Z.max (longest (Split message newline)) (len tag + 4) /\
  forall line, In line (Split message newline) -> len line <= contentWidth message tag.
Proof.
  intros Hfit. unfold fits in Hfit.
  pose proof (longest_nonneg (Split message newline)) as Hn.
  pose proof (len_nonneg tag) as Ht.
  assert (Hp : len tag + 4 <= maxInt \/ padding l < 0) by lia.
  pose proof (longest_ge (Split message newline)) as Hge.
  destruct Hp as [Hp|Hp].
  - rewrite (contentWidth_max message tag Hp).
    destruct (tag =? "")%string; split; try lia;
      intros line Hin; specialize (Hge line Hin); lia.
  - unfold contentWidth.
    destruct (tag =? "")%string; simpl.
    + split; [lia|]. intros line Hin. now apply Hge.
    + unfold add. destruct (Z.gtb_spec (wrap (len tag + 4)) (longest (Split message newline))).
      * unfold wrap in *. split.
        -- split; [lia|].
           pose proof (Z.mod_pos_bound (len tag + 4 + 2 ^ 63) (2 ^ 64) ltac:(lia)).
           assert (len tag + 4 + 2 ^ 63 < 2 ^ 64 \/ 2 ^ 64 <= len tag + 4 + 2 ^ 63) as [Hs|Hb] by lia.
           ++ rewrite Z.mod_small by lia. lia.
           ++ unfold maxInt in *. lia.
        -- intros line Hin. specialize (Hge line Hin). lia.
      * split; [lia|]. intros line Hin. now apply Hge.
Qed.

Lemma messageLine_ok (l : Logger) (width : Z) (line : string) :
  0 <= padding l <= maxInt -> len line <= width <= maxInt ->
  messageLine l width line = Ok (boxRow l width line).
Proof.
  intros Hp Hw. unfold messageLine, boxRow, sub.
  pose proof (len_nonneg line) as Hl.
  rewrite (Repeat_ok " " (padding l)) by (change (len " ") with 1; lia).
  cbn [bind].
  rewrite wrap_small by (unfold minInt, maxInt in *; lia).
  rewrite Repeat_ok by (change (len " ") with 1; lia).
  cbn [bind]. now rewrite !append_assoc.
Qed.

Lemma messageLines_ok (l : Logger) (width : Z) (colorFunc : string -> string)
      (lines : list string) (written : string) :
  0 <= padding l <= maxInt -> width <= maxInt ->
  (forall line, In line lines -> len line <= width) ->
  fold_left (fun acc line =>
               result <- acc ;;
               paddedLine <- messageLine l width line ;;
               Ok (result ++ colorFunc paddedLine ++ nl))
            lines (Ok written)
  = Ok (written ++ catAll (map (fun line => colorFunc (boxRow l width line) ++ nl) lines)).
Proof.
  intros Hp Hw. revert written.
  induction lines as [|line lines IH]; intros written Hall.
  - simpl. now rewrite append_nil_r.
  - cbn [fold_left bind].
    rewrite messageLine_ok by (first [exact Hp | split; [apply Hall; now left | exact Hw]]).
    cbn [bind]. rewrite IH by (intros x Hx; apply Hall; now right).
    f_equal. cbn [map catAll fold_right]. now rewrite !append_assoc.
Qed.

Lemma SplitN_topBorder (body : string) :
  body <> "" -> SplitN_empty_2 (topLeft ++ body) = [topLeft; body].
Proof.
  intros Hbody. unfold SplitN_empty_2, topLeft. simpl.
  destruct body; [contradiction | reflexivity].
Qed.

Lemma width_no_wrap (l : Logger) (message tag : string) :
  1 <= padding l -> fits l message tag ->
  add (contentWidth message tag) (mul (padding l) 2) = interiorWidth l message tag /\
  0 <= padding l <= maxInt /\
  3 * interiorWidth l message tag <= maxInt /\
  forall line, In line (Split message newline) ->
               len line <= interiorWidth l message tag.
Proof.
  intros Hp Hfit.
  destruct (contentWidth_bounds l message tag Hfit) as [Hcw Hlines].
  unfold fits in Hfit. unfold interiorWidth, add, mul.
  assert (Hm : maxInt = 9223372036854775807) by reflexivity.
  assert (Hn : minInt = -9223372036854775808) by reflexivity.
  rewrite (wrap_small (padding l * 2)) by lia.
  rewrite wrap_small by lia.
  repeat split; try lia.
  intros line Hin. specialize (Hlines line Hin). lia.
Qed.

(** What formatBox returns whenever its timestamp row can be padded. *)
Lemma formatBox_returns (l : Logger) (message tag : string)
      (colorFunc : string -> string) (now : Time) :
  1 <= padding l -> fits l message tag ->
  (showTimestamp l = false \/ 8 <= interiorWidth l message tag) ->
  let width := interiorWidth l message tag in
  formatBox tagColor l message tag colorFunc now =
    Ok (colorFunc (if (tag =? "")%string then topLeft ++ rule width ++ topRight
                   else topLeft ++ (" " ++ tagColor tag ++ " ") ++ rule width ++ topRight)
        ++ nl
        ++ (if showTimestamp l
            then colorFunc (boxRow l width (Format_150405 now)) ++ nl else "")
        ++ catAll (map (fun line => colorFunc (boxRow l width line) ++ nl)
                       (Split message newline))
        ++ colorFunc (bottomLeft ++ rule width ++ bottomRight)).
Proof.
  intros Hp Hfit Hts width.
  destruct (width_no_wrap l message tag Hp Hfit) as (Hw & Hpad & H3 & Hlines).
  fold width in Hw, H3, Hlines.
  assert (Hm : maxInt = 9223372036854775807) by reflexivity.
  assert (Hwn : 0 <= width).
  { pose proof (proj1 (contentWidth_bounds l message tag Hfit)).
    unfold width, interiorWidth. lia. }
  unfold formatBox. cbv zeta. rewrite Hw.
  rewrite (Repeat_ok horizontal width) by (change (len horizontal) with 3; lia).
  cbn [bind]. fold (rule width).
  assert (Htop :
    (if negb (tag =? "")%string
     then part0 <- index (SplitN_empty_2 (topLeft ++ rule width ++ topRight)) 0 ;;
          part1 <- index (SplitN_empty_2 (topLeft ++ rule width ++ topRight)) 1 ;;
          Ok ("" ++ colorFunc (part0 ++ (" " ++ tagColor tag ++ " ") ++ part1) ++ nl)
     else Ok ("" ++ colorFunc (topLeft ++ rule width ++ topRight) ++ nl))
    = Ok (colorFunc (if (tag =? "")%string then topLeft ++ rule width ++ topRight
                     else topLeft ++ (" " ++ tagColor tag ++ " ") ++ rule width ++ topRight)
          ++ nl)).
  { destruct (tag =? "")%string; cbn [negb]; [reflexivity|].
    rewrite SplitN_topBorder by (destruct (rule width); discriminate).
    reflexivity. }
  rewrite Htop. clear Htop. cbn [bind].
  assert (Hstamp :
    (if showTimestamp l
     then pad <- Repeat " " (padding l) ;;
          fill <- Repeat " " (sub width (len (Format_150405 now))) ;;
          Ok ((colorFunc (if (tag =? "")%string then topLeft ++ rule width ++ topRight
                          else topLeft ++ (" " ++ tagColor tag ++ " ") ++ rule width ++ topRight)
               ++ nl)
              ++ colorFunc ((vertical ++ pad ++ Format_150405 now) ++ fill ++ vertical) ++ nl)
     else Ok (colorFunc (if (tag =? "")%string then topLeft ++ rule width ++ topRight
                         else topLeft ++ (" " ++ tagColor tag ++ " ") ++ rule width ++ topRight)
              ++ nl))
    = Ok ((colorFunc (if (tag =? "")%string then topLeft ++ rule width ++ topRight
                      else topLeft ++ (" " ++ tagColor tag ++ " ") ++ rule width ++ topRight)
           ++ nl)
          ++ (if showTimestamp l
              then colorFunc (boxRow l width (Format_150405 now)) ++ nl else ""))).
  { destruct (showTimestamp l).
    - destruct Hts as [Hts|Hts]; [discriminate|]. fold width in Hts.
      rewrite (Repeat_ok " " (padding l)) by (change (len " ") with 1; lia).
      cbn [bind]. rewrite len_Format. unfold sub.
      rewrite wrap_small by (unfold minInt; lia).
      rewrite Repeat_ok by (change (len " ") with 1; lia).
      cbn [bind]. unfold boxRow. rewrite len_Format.
      now rewrite !append_assoc.
    - now rewrite append_nil_r. }
  rewrite Hstamp. clear Hstamp. cbn [bind].
  rewrite messageLines_ok by (auto; lia).
  cbn [bind]. fold (rule width). now rewrite !append_assoc.
Qed.

(** With the timestamp on and an interior narrower than the eight bytes
    of the timestamp, the padding count is negative and formatBox
    panics. *)
Lemma formatBox_panics (l : Logger) (message tag : string)
      (colorFunc : string -> string) (now : Time) :
  1 <= padding l -> fits l message tag ->
  showTimestamp l = true -> interiorWidth l message tag < 8 ->
  formatBox tagColor l message tag colorFunc now
  = Panic "strings: negative Repeat count".
Proof.
  intros Hp Hfit Hshow Hnarrow.
  destruct (width_no_wrap l message tag Hp Hfit) as (Hw & Hpad & H3 & Hlines).
  assert (Hm : maxInt = 9223372036854775807) by reflexivity.
  assert (Hwn : 0 <= interiorWidth l message tag).
  { pose proof (proj1 (contentWidth_bounds l message tag Hfit)).
    unfold interiorWidth. lia. }
  unfold formatBox. cbv zeta. rewrite Hw, Hshow.
  rewrite (Repeat_ok horizontal) by (change (len horizontal) with 3; lia).
  cbn [bind].
  destruct (tag =? "")%string; cbn [negb].
  - cbn [bind].
    rewrite (Repeat_ok " " (padding l)) by (change (len " ") with 1; lia).
    cbn [bind]. rewrite len_Format. unfold sub.
    rewrite wrap_small by (unfold minInt; lia).
    rewrite Repeat_negative by lia. reflexivity.
  - rewrite SplitN_topBorder
      by (destruct (replicate horizontal (Z.to_nat (interiorWidth l message tag))); discriminate).
    cbn [index nth_error bind].
    rewrite (Repeat_ok " " (padding l)) by (change (len " ") with 1; lia).
    cbn [bind]. rewrite len_Format. unfold sub.
    rewrite wrap_small by (unfold minInt; lia).
    rewrite Repeat_negative by lia. reflexivity.
Qed.

End BoxFacts.

Lemma cont_digit (n : nat) : cont (digit n) = false.
Proof.
  unfold digit.
  assert (H : (n mod 10 < 10)%nat) by (apply Nat.mod_upper_bound; lia).
  remember (n mod 10)%nat as d eqn:E. clear E.
  do 10 (destruct d as [|d]; [reflexivity|]). lia.
Qed.

Lemma charCount_Format (now : Time) : charCount (Format_150405 now) = 8.
Proof.
  unfold Format_150405, twoDigits. rewrite !charCount_append.
  cbn [charCount]. rewrite !cont_digit. reflexivity.
Qed.

Section BoxClaims.
Variables warningColor messageColor infoColor errorColor
          successColor ongoingColor tagColor : string -> string.
Lemma single_line_box (l : Logger) (message : string)
      (colorFunc : string -> string) (now : Time) :
  singleLine message = true -> 1 <= padding l -> fits l message "" ->
  (showTimestamp l = false \/ 8 <= len message + 2 * padding l) ->
  let width := len message + 2 * padding l in
  let top := topLeft ++ rule width ++ topRight in
  let stamp := boxRow l width (Format_150405 now) in
  let row := boxRow l width message in
  let bottom := bottomLeft ++ rule width ++ bottomRight in
  formatBox tagColor l message "" colorFunc now =
    Ok (colorFunc top ++ nl
        ++ (if showTimestamp l then colorFunc stamp ++ nl else "")
        ++ colorFunc row ++ nl ++ colorFunc bottom) /\
  charCount top = width + 2 /\ charCount bottom = width + 2 /\
  charCount row = charCount message + 3 * padding l + 2 /\
  (showTimestamp l = true -> charCount stamp = len message + 3 * padding l + 2).
Proof.
  intros Hone Hp Hfit Hts width top stamp row bottom.
  assert (Hcw : contentWidth message "" = len message).
  { unfold contentWidth. rewrite (Split_singleLine _ Hone). cbn [String.eqb negb].
    apply longest_one. }
  assert (Hiw : interiorWidth l message "" = width).
  { unfold interiorWidth. now rewrite Hcw. }
  pose proof (len_nonneg message) as Hlen.
  split.
  - rewrite (formatBox_returns tagColor l message "" colorFunc now Hp Hfit)
      by (now rewrite Hiw).
    rewrite Hiw, (Split_singleLine _ Hone). cbn [String.eqb map catAll fold_right].
    now rewrite !append_assoc, ?append_nil_r.
  - unfold top, bottom, row, stamp, boxRow, rule.
    rewrite !charCount_append, !charCount_replicate, charCount_Format, len_Format.
    change (charCount topLeft) with 1. change (charCount topRight) with 1.
    change (charCount bottomLeft) with 1. change (charCount bottomRight) with 1.
    change (charCount horizontal) with 1. change (charCount vertical) with 1.
    change (charCount " ") with 1. 
    repeat split; try lia.
    intros Hshow. destruct Hts as [Hts|Hts]; [congruence|]. lia.
Qed.

(** C1 (the code departs from it).  The box around "hello" with
    padding 1 and no timestamp: the borders are 9 characters wide, as
    2*padding + contentWidth + 2 asks, but the message row is 10
    characters wide, its right border one column past the corners. *)
Theorem hello_row_overhangs_border (colorFunc : string -> string) (now : Time) :
  formatBox tagColor {| showTimestamp := false; padding := 1 |} "hello" "" colorFunc now
  = Ok (colorFunc "╭───────╮" ++ nl ++ colorFunc "│ hello  │" ++ nl
        ++ colorFunc "╰───────╯") /\
  charCount "╭───────╮" = 9 /\ charCount "╰───────╯" = 9 /\
  charCount "│ hello  │" = 10 /\
  2 * 1 + contentWidth "hello" "" + 2 = 9.
Proof.
  split; [|repeat split; reflexivity].
  refine (proj1 (single_line_box {| showTimestamp := false; padding := 1 |}
                                 "hello" colorFunc now _ _ _ _)).
  - reflexivity.
  - simpl. lia.
  - unfold fits. vm_compute. discriminate.
  - now left.
Qed.

(** C2 (the code departs from it).  The default logger shows the
    timestamp with padding 1; for the message "hi" the interior is 4
    wide, the timestamp row asks for 4 - 8 spaces, and formatBox
    panics instead of returning a box. *)
Theorem short_message_with_timestamp_panics (colorFunc : string -> string) (now : Time) :
  interiorWidth DefaultLogger "hi" "" = 4 /\
  Repeat " " (sub 4 (len (Format_150405 now))) = Panic "strings: negative Repeat count" /\
  formatBox tagColor DefaultLogger "hi" "" colorFunc now
  = Panic "strings: negative Repeat count" /\
  Info infoColor tagColor "hi" [] now = Panic "strings: negative Repeat count".
Proof. repeat split; reflexivity. Qed.

(** Where formatBox returns a box for a call with a tag (in this model:
    the timestamp off, or the interior at least 8 wide), the border is
    as follows.  With a non-empty tag the width before padding is the larger of
    the longest line and len(tag) + 4; the styled tag, a space on each
    side, sits right after the left corner of the top border, in front
    of the full horizontal rule, so the top border is wider than
    interior width + 2, which is the width of the untagged bottom
    border. *)
Theorem tag_spliced_after_corner (l : Logger) (message tag : string)
        (colorFunc : string -> string) (now : Time) :
  tag <> "" -> 1 <= padding l -> fits l message tag ->
  (showTimestamp l = false \/ 8 <= interiorWidth l message tag) ->
  contentWidth message tag = Z.max (longest (Split message newline)) (len tag + 4) /\
  formatBox tagColor l message tag colorFunc now =
    Ok (colorFunc (topLeft ++ (" " ++ tagColor tag ++ " ")
                   ++ rule (interiorWidth l message tag) ++ topRight) ++ nl
        ++ (if showTimestamp l
            then colorFunc (boxRow l (interiorWidth l message tag) (Format_150405 now)) ++ nl
            else "")
        ++ catAll (map (fun line =>
                          colorFunc (boxRow l (interiorWidth l message tag) line) ++ nl)
                       (Split message newline))
        ++ colorFunc (bottomLeft ++ rule (interiorWidth l message tag) ++ bottomRight)) /\
  charCount (bottomLeft ++ rule (interiorWidth l message tag) ++ bottomRight)
  = interiorWidth l message tag + 2 /\
  charCount (topLeft ++ (" " ++ tagColor tag ++ " ")
             ++ rule (interiorWidth l message tag) ++ topRight)
  = interiorWidth l message tag + 2 + (charCount (tagColor tag) + 2) /\
  interiorWidth l message tag + 2
  < charCount (topLeft ++ (" " ++ tagColor tag ++ " ")
               ++ rule (interiorWidth l message tag) ++ topRight).
Proof.
  intros Htag Hp Hfit Hts.
  assert (Hne : (tag =? "")%string = false) by now apply String.eqb_neq.
  assert (Hw : 0 <= interiorWidth l message tag).
  { pose proof (proj1 (contentWidth_bounds l message tag Hfit)).
    unfold interiorWidth. lia. }
  pose proof (charCount_nonneg (tagColor tag)) as Hc.
  split; [|split].
  - rewrite contentWidth_max, Hne; [reflexivity|].
    unfold fits in Hfit.
    pose proof (longest_nonneg (Split message newline)). lia.
  - rewrite (formatBox_returns tagColor l message tag colorFunc now Hp Hfit Hts).
    now rewrite Hne.
  - unfold rule.
    rewrite !charCount_append, !charCount_replicate.
    change (charCount topLeft) with 1. change (charCount topRight) with 1.
    change (charCount bottomLeft) with 1. change (charCount bottomRight) with 1.
    change (charCount horizontal) with 1. change (charCount " ") with 1.
    lia.
Qed.

(** C7.  NewLogger stores max(padding, 1) as the padding and keeps the
    timestamp flag as given. *)
Theorem NewLogger_clamps_padding (show : bool) (p : Z) :
  padding (NewLogger show p) = Z.max p 1 /\
  showTimestamp (NewLogger show p) = show.
Proof.
  unfold NewLogger. split; [|reflexivity]. simpl.
  destruct (Z.ltb_spec p 1); lia.
Qed.

(** C8.  Each package-level function is the method of the same name on
    DefaultLogger, whose configuration is timestamp on, padding 1. *)
Theorem global_functions_use_DefaultLogger (message : string) (tag : list string)
        (now : Time) :
  DefaultLogger = {| showTimestamp := true; padding := 1 |} /\
  Warning warningColor tagColor message tag now
  = Logger_Warning warningColor tagColor DefaultLogger message tag now /\
  Message messageColor tagColor message tag now
  = Logger_Message messageColor tagColor DefaultLogger message tag now /\
  Info infoColor tagColor message tag now
  = Logger_Info infoColor tagColor DefaultLogger message tag now /\
  Error errorColor tagColor message tag now
  = Logger_Error errorColor tagColor DefaultLogger message tag now /\
  Success successColor tagColor message tag now
  = Logger_Success successColor tagColor DefaultLogger message tag now /\
  Ongoing ongoingColor tagColor message tag now
  = Logger_Ongoing ongoingColor tagColor DefaultLogger message tag now /\
  forall c : Category,
    match c with
    | CWarning => Warning warningColor tagColor message tag now
    | CMessage => Message messageColor tagColor message tag now
    | CInfo => Info infoColor tagColor message tag now
    | CError => Error errorColor tagColor message tag now
    | CSuccess => Success successColor tagColor message tag now
    | COngoing => Ongoing ongoingColor tagColor message tag now
    end
    = (box <- formatBox tagColor {| showTimestamp := true; padding := 1 |}
                        message (tagStr tag)
                        (categoryColor warningColor messageColor infoColor errorColor
                                       successColor ongoingColor c) now ;;
       Ok (Println box)).
Proof.
  repeat split. intros c. destruct c; reflexivity.
Qed.

End BoxClaims.

Lemma tag_spliced_after_corner_witness :
  14 + 2 < charCount (topLeft ++ (" " ++ plain "TAG" ++ " ") ++ rule 14 ++ topRight).
Proof.
  refine (proj2 (proj2 (proj2 (proj2
    (tag_spliced_after_corner plain {| showTimestamp := true; padding := 1 |}
       "hello, world" "TAG" plain noon _ _ _ _))))).
  - discriminate.
  - simpl. lia.
  - unfold fits. vm_compute. discriminate.
  - right. vm_compute. discriminate.
Defined.

(* ------------------------------------------------------------------ *)
(** ** The flat renderers *)

(** Text joined by [", "], the separator written before every item but
    the first. *)
Lemma concat_comma (item : string) (items : list string) :
  String.concat ", " (item :: items)
  = item ++ catAll (map (fun x => ", " ++ x) items).
Proof.
  revert item. induction items as [|y items IH]; intros item.
  - simpl. now rewrite append_nil_r.
  - change (String.concat ", " (item :: y :: items))
      with (item ++ ", " ++ String.concat ", " (y :: items)).
    rewrite IH. cbn [map catAll fold_right]. now rewrite !append_assoc.
Qed.

Section FlatLoops.

Variable show : any -> string.

Let entry (e : string * any) : string := fst e ++ ": " ++ show (snd e).

Lemma prettyMap_loop_rest (m : gomap) (written : string) :
  fold_left (fun '(result, first) '(k, v) =>
               let result := if negb first then result ++ ", " else result in
               let first := false in
               (result ++ (k ++ ": " ++ show v), first))
            m (written, false)
  = (written ++ catAll (map (fun e => ", " ++ entry e) m), false).
Proof.
  revert written. induction m as [|[k v] m IH]; intros written.
  - simpl. now rewrite append_nil_r.
  - cbn [fold_left negb]. rewrite IH. cbn [map catAll fold_right].
    unfold entry at 2. cbn [fst snd]. now rewrite !append_assoc.
Qed.

(** The loop of MapAsPrettyString writes the entries in the order it
    visits them, separated by [", "]. *)
Lemma prettyMap_entries (m : gomap) :
  prettyMap show m [] = "{" ++ String.concat ", " (map entry m) ++ "}".
Proof.
  unfold prettyMap. destruct m as [|[k v] m].
  - reflexivity.
  - cbn [fold_left negb]. rewrite prettyMap_loop_rest.
    cbn [map]. rewrite concat_comma, map_map.
    unfold entry at 2. cbn [fst snd]. cbn [append]. now rewrite !append_assoc.
Qed.

Lemma prettyMap_before (m : gomap) (before : string) (more : list string) :
  prettyMap show m (before :: more) = before ++ " " ++ prettyMap show m [].
Proof.
  unfold prettyMap.
  destruct (fold_left _ m ("{", true)) as [result first]. reflexivity.
Qed.

End FlatLoops.

Lemma ListAsPrettyString_loop_rest (list : list string) (written : string) :
  fold_left (fun '(result, first) v =>
               let result := if negb first then result ++ ", " else result in
               let first := false in
               (result ++ (quote ++ v ++ quote), first))
            list (written, false)
  = (written ++ catAll (map (fun v => ", " ++ quoted v) list), false).
Proof.
  revert written. induction list as [|v list IH]; intros written.
  - simpl. now rewrite append_nil_r.
  - cbn [fold_left negb]. rewrite IH. cbn [map catAll fold_right].
    unfold quoted at 2. now rewrite !append_assoc.
Qed.

(** ListAsPrettyString writes every element between two double quotes,
    byte for byte. *)
Lemma ListAsPrettyString_elements (list : list string) :
  ListAsPrettyString list [] = "[" ++ String.concat ", " (map quoted list) ++ "]".
Proof.
  unfold ListAsPrettyString. destruct list as [|v list].
  - reflexivity.
  - cbn [fold_left negb]. rewrite ListAsPrettyString_loop_rest.
    cbn [map]. rewrite concat_comma, map_map.
    unfold quoted at 2. cbn [append]. now rewrite !append_assoc.
Qed.

Lemma ListAsPrettyStringWithIndex_loop_rest
      (list : Datatypes.list string) (written : string) (start : nat) :
  fold_left (fun '(result, first, i) v =>
               let result := if negb first then result ++ ", " else result in
               let first := false in
               (result ++ (decimal (i + 1) ++ ": " ++ quote ++ v ++ quote), first, i + 1))
            list (written, false, Z.of_nat start)
  = (written
     ++ catAll (map (fun i => ", " ++ decimal (Z.of_nat (start + i) + 1) ++ ": "
                                   ++ quoted (nth i list ""))
                    (seq 0 (List.length list))),
     false, Z.of_nat (start + List.length list)).
Proof.
  revert written start. induction list as [|v list IH]; intros written start.
  - simpl. rewrite append_nil_r. now replace (start + 0)%nat with start by lia.
  - cbn [fold_left negb].
    replace (Z.of_nat start + 1) with (Z.of_nat (S start)) at 2 by lia.
    rewrite IH. cbn [List.length seq map catAll fold_right nth].
    rewrite <- seq_shift, map_map.
    replace (start + 0)%nat with start by lia.
    replace (S start + List.length list)%nat with (start + S (List.length list))%nat by lia.
    rewrite (map_ext
               (fun i => ", " ++ decimal (Z.of_nat (S start + i) + 1) ++ ": "
                              ++ quoted (nth i list ""))
               (fun i => ", " ++ decimal (Z.of_nat (start + S i) + 1) ++ ": "
                              ++ quoted (nth i list "")))
      by (intros i; replace (S start + i)%nat with (start + S i)%nat by lia;
          reflexivity).
    unfold quoted. now rewrite !append_assoc.
Qed.

(** ListAsPrettyStringWithIndex numbers the elements from 1. *)
Lemma ListAsPrettyStringWithIndex_elements (list : Datatypes.list string) :
  ListAsPrettyStringWithIndex list []
  = "[" ++ String.concat ", "
             (map (fun i => decimal (Z.of_nat i + 1) ++ ": " ++ quoted (nth i list ""))
                  (seq 0 (List.length list))) ++ "]".
Proof.
  unfold ListAsPrettyStringWithIndex. destruct list as [|v list].
  - reflexivity.
  - cbn [fold_left negb].
    change (0 + 1) with (Z.of_nat 1).
    rewrite ListAsPrettyStringWithIndex_loop_rest.
    cbn [List.length seq map nth]. rewrite concat_comma, <- seq_shift, !map_map.
    unfold quoted. cbn [append Nat.add]. now rewrite !append_assoc.
Qed.

(** C9.  Each pretty-string operation given leading fragments returns
    the first fragment, one space, then what it returns without any
    fragment; the fragments after the first play no part. *)
Theorem first_fragment_then_rendering
        (m : gomap) (list : Datatypes.list string) (before : string)
        (more : Datatypes.list string) :
  MapAsPrettyString m (before :: more) = before ++ " " ++ MapAsPrettyString m [] /\
  ListAsPrettyString list (before :: more)
  = before ++ " " ++ ListAsPrettyString list [] /\
  ListAsPrettyStringWithIndex list (before :: more)
  = before ++ " " ++ ListAsPrettyStringWithIndex list [] /\
  MapAsPrettyString m []
  = "{" ++ String.concat ", " (map (fun e => fst e ++ ": " ++ ValueAsString (snd e)) m)
        ++ "}" /\
  ListAsPrettyString list [] = "[" ++ String.concat ", " (map quoted list) ++ "]" /\
  ListAsPrettyStringWithIndex list []
  = "[" ++ String.concat ", "
             (map (fun i => decimal (Z.of_nat i + 1) ++ ": " ++ quoted (nth i list ""))
                  (seq 0 (List.length list))) ++ "]".
Proof.
  split; [|split; [|split; [|split; [|split]]]].
  - apply prettyMap_before.
  - unfold ListAsPrettyString.
    destruct (fold_left _ list ("[", true)) as [result first]. reflexivity.
  - unfold ListAsPrettyStringWithIndex.
    destruct (fold_left _ list ("[", true, 0)) as [[result first] i]. reflexivity.
  - apply prettyMap_entries.
  - apply ListAsPrettyString_elements.
  - apply ListAsPrettyStringWithIndex_elements.
Qed.

(** C10.  A string is rendered as a double quote, its bytes unchanged,
    and a double quote, by ValueAsString and by ListAsPrettyString
    alike; nothing is escaped, so a string holding a double quote gives
    the output of a different input. *)
Theorem strings_quoted_verbatim (s : string) (list : Datatypes.list string) :
  ValueAsString (VString s) = quote ++ s ++ quote /\
  ListAsPrettyString list []
  = "[" ++ String.concat ", " (map (fun v => quote ++ v ++ quote) list) ++ "]" /\
  ListAsPrettyString [s] [] = "[" ++ quote ++ s ++ quote ++ "]" /\
  (let tricky := "a" ++ quote ++ ", " ++ quote ++ "b" in
   [tricky] <> ["a"; "b"] /\
   ListAsPrettyString [tricky] [] = ListAsPrettyString ["a"; "b"] []) /\
  (let tricky := "a" ++ quote ++ ", j: " ++ quote ++ "b" in
   VMap [("k", VString tricky)] <> VMap [("k", VString "a"); ("j", VString "b")] /\
   ValueAsString (VMap [("k", VString tricky)])
   = ValueAsString (VMap [("k", VString "a"); ("j", VString "b")])).
Proof.
  split; [reflexivity|]. split; [apply ListAsPrettyString_elements|].
  split; [|split; split; (discriminate || reflexivity)].
  rewrite ListAsPrettyString_elements. simpl. unfold quoted.
  now rewrite !append_assoc.
Qed.

(* ------------------------------------------------------------------ *)
(** ** Sorting keys *)

Lemma leb_trans (a b c : string) :
  String.leb a b = true -> String.leb b c = true -> String.leb a c = true.
Proof.
  unfold String.leb. revert b c.
  induction a as [|x a IH]; intros [|y b] [|z c]; simpl; try easy.
  unfold Ascii.compare.
  destruct (N.compare_spec (N_of_ascii x) (N_of_ascii y)) as [Exy|Lxy|Gxy];
    try discriminate;
    destruct (N.compare_spec (N_of_ascii y) (N_of_ascii z)) as [Eyz|Lyz|Gyz];
    try discriminate; intros Hab Hbc.
  - rewrite Exy, Eyz, N.compare_refl. now apply IH with (b := b).
  - rewrite Exy. now rewrite (proj2 (N.compare_lt_iff _ _) Lyz).
  - rewrite <- Eyz. now rewrite (proj2 (N.compare_lt_iff _ _) Lxy).
  - now rewrite (proj2 (N.compare_lt_iff _ _) (N.lt_trans _ _ _ Lxy Lyz)).
Qed.

Lemma sortStrings_sorted (a : list string) : StronglySorted byteLe (sortStrings a).
Proof.
  apply SortStrings.StronglySorted_sort.
  intros x y z Hxy Hyz. exact (leb_trans x y z Hxy Hyz).
Qed.

Lemma sortStrings_permutation (a : list string) : Permutation a (sortStrings a).
Proof. apply SortStrings.Permuted_sort. Qed.

Lemma sorted_unique (a b : list string) :
  StronglySorted byteLe a -> StronglySorted byteLe b -> Permutation a b -> a = b.
Proof.
  intros Ha. revert b. induction Ha as [|x a Ha IH Hx]; intros b Hb Hperm.
  - now apply Permutation_nil in Hperm.
  - destruct Hb as [|y b Hb Hy].
    + apply Permutation_sym, Permutation_nil in Hperm. discriminate.
    + assert (x = y) as <-.
      { assert (Hyin : In y (x :: a))
          by (apply Permutation_in with (l := y :: b); [now symmetry | now left]).
        assert (Hxin : In x (y :: b))
          by (apply Permutation_in with (l := x :: a); [assumption | now left]).
        rewrite Forall_forall in Hx, Hy.
        destruct Hyin as [E|Hyin]; [assumption|].
        destruct Hxin as [E|Hxin]; [now symmetry|].
        apply String.leb_antisym; [apply Hx | apply Hy]; assumption. }
      f_equal. apply IH; [assumption|]. now apply Permutation_cons_inv with (a := x).
Qed.

Lemma sortStrings_order_free (a b : list string) :
  Permutation a b -> sortStrings a = sortStrings b.
Proof.
  intros Hperm. apply sorted_unique; try apply sortStrings_sorted.
  rewrite <- (sortStrings_permutation a), <- (sortStrings_permutation b).
  assumption.
Qed.

(* ------------------------------------------------------------------ *)
(** ** The tree renderer *)

Lemma textOf_entry (f : string -> any -> string) (m : gomap) (k : string) :
  In k (keys m) ->
  textOf k (map (fun '(k', v') => (k', f k' v')) m) = f k (lookup k m).
Proof.
  induction m as [|[k' v'] m IH]; intros Hin; [destruct Hin|].
  cbn [map textOf lookup].
  destruct (String.eqb_spec k k') as [->|Hne]; [reflexivity|].
  apply IH. destruct Hin as [E|Hin]; [now symmetry in E|assumption].
Qed.

Lemma keys_written (f : string -> any -> string) (m : gomap) :
  map fst (map (fun '(k', v') => (k', f k' v')) m) = keys m.
Proof.
  unfold keys. rewrite map_map. apply map_ext. now intros [k v].
Qed.

(** The text per key is written in sorted key order, each key with the
    value the map holds for it. *)
Lemma inKeyOrder_loop (f : string -> any -> string) (m : gomap) :
  inKeyOrder (map (fun '(k', v') => (k', f k' v')) m)
  = catAll (map (fun k => f k (lookup k m)) (sortStrings (keys m))).
Proof.
  unfold inKeyOrder. rewrite keys_written.
  rewrite (map_ext_in
             (fun k => textOf k (map (fun '(k', v') => (k', f k' v')) m))
             (fun k => f k (lookup k m))); [reflexivity|].
  intros k Hin. apply textOf_entry.
  apply Permutation_in with (l := sortStrings (keys m)); [|assumption].
  symmetry. apply sortStrings_permutation.
Qed.

(** PrintMapWithIndent as its source reads: collect the keys, sort
    them, and run the loop body on each key and [m[k]]. *)
Lemma PrintMapWithIndent_loop (m : gomap) (indent : string) :
  PrintMapWithIndent m indent
  = catAll (map (fun k => printKey k (lookup k m) indent) (sortStrings (keys m))).
Proof.
  unfold PrintMapWithIndent.
  exact (inKeyOrder_loop (fun k v => printKey k v indent) m).
Qed.

Lemma printKey_map (k : string) (value : gomap) (indent : string) :
  printKey k (VMap value) indent
  = indent ++ k ++ ": {" ++ nl
    ++ PrintMapWithIndent value (indent ++ "  ")
    ++ indent ++ "}" ++ nl.
Proof. reflexivity. Qed.

Lemma printKey_slice (k : string) (value : list any) (indent : string) :
  printKey k (VSlice value) indent
  = indent ++ k ++ ": [" ++ nl
    ++ catAll (map (fun i => printItem (Z.of_nat i) (nth i value VNil) indent)
                   (seq 0 (List.length value)))
    ++ indent ++ "]" ++ nl.
Proof.
  cbn [printKey].
  match goal with |- context [?loop 0 value] => set (items := loop) end.
  assert (Hloop : forall rest start,
             items (Z.of_nat start) rest
             = catAll (map (fun i => printItem (Z.of_nat (start + i))
                                               (nth i rest VNil) indent)
                           (seq 0 (List.length rest)))).
  { induction rest as [|item rest IH]; intros start; [reflexivity|].
    cbn [List.length seq map catAll fold_right nth].
    rewrite <- seq_shift, map_map.
    replace (start + 0)%nat with start by lia.
    change (items (Z.of_nat start) (item :: rest))
      with (printItem (Z.of_nat start) item indent
            ++ items (Z.of_nat start + 1) rest).
    f_equal.
    replace (Z.of_nat start + 1) with (Z.of_nat (S start)) by lia.
    rewrite IH. unfold catAll. f_equal. apply map_ext. intros i. cbn [nth].
    now replace (S start + i)%nat with (start + S i)%nat by lia. }
  change (items 0 value) with (items (Z.of_nat 0) value).
  rewrite (Hloop value 0%nat). reflexivity.
Qed.

Lemma printKey_scalar (k : string) (v : any) (indent : string) :
  match v with VMap _ | VSlice _ => False | _ => True end ->
  printKey k v indent = indent ++ k ++ ": " ++ fmtV v ++ nl.
Proof. destruct v; simpl; tauto. Qed.

Lemma fmtV_map (m : gomap) :
  fmtV (VMap m)
  = "map[" ++ String.concat " " (map (fun k => k ++ ":" ++ fmtV (lookup k m))
                                     (sortStrings (keys m))) ++ "]".
Proof.
  cbn [fmtV].
  rewrite (map_ext_in
             (fun k => textOf k (map (fun '(k0, x) => (k0, k0 ++ ":" ++ fmtV x)) m))
             (fun k => k ++ ":" ++ fmtV (lookup k m))); [reflexivity|].
  intros k Hin. apply (textOf_entry (fun k x => k ++ ":" ++ fmtV x)).
  apply Permutation_in with (l := sortStrings (keys m)); [|assumption].
  symmetry. apply sortStrings_permutation.
Qed.

Lemma lookup_In (m : gomap) (k : string) (v : any) :
  NoDup (keys m) -> In (k, v) m -> lookup k m = v.
Proof.
  induction m as [|[k' v'] m IH]; intros Hnd Hin; [destruct Hin|].
  cbn [lookup]. inversion Hnd as [|? ? Hnotin Hnd']; subst.
  destruct Hin as [E|Hin].
  - inversion E; subst. now rewrite String.eqb_refl.
  - destruct (String.eqb_spec k k') as [->|Hne]; [|now apply IH].
    exfalso. apply Hnotin. unfold keys.
    change k' with (fst (k', v)). now apply in_map.
Qed.

Lemma lookup_order_free (m m' : gomap) (k : string) :
  NoDup (keys m) -> Permutation m m' -> In k (keys m) ->
  lookup k m = lookup k m'.
Proof.
  intros Hnd Hperm Hin. unfold keys in Hin.
  apply in_map_iff in Hin as ([k' v] & Hk & Hin). cbn [fst] in Hk. subst k'.
  rewrite (lookup_In m k v Hnd Hin). symmetry. apply lookup_In.
  - apply Permutation_NoDup with (l := keys m); [|assumption].
    unfold keys. now apply Permutation_map.
  - now apply Permutation_in with (l := m).
Qed.

(** The tree renderer and [%v] do not see the order in which the maps
    inside a value list their entries. *)
Lemma sameValue_rendering (v v' : any) :
  sameValue v v' ->
  (forall k indent, printKey k v indent = printKey k v' indent) /\
  (forall i indent, printItem i v indent = printItem i v' indent) /\
  fmtV v = fmtV v'.
Proof.
  induction 1 as [s|n|shown|b| |m m' Hnd Hperm Hsame IH|items items' Hlen Hsame IH];
    try (repeat split; reflexivity).
  - assert (Hsorted : sortStrings (keys m') = sortStrings (keys m))
      by (symmetry; now apply sortStrings_order_free).
    assert (Hin : forall k, In k (sortStrings (keys m)) -> In k (keys m)).
    { intros k Hk. apply Permutation_in with (l := sortStrings (keys m)); [|assumption].
      symmetry. apply sortStrings_permutation. }
    assert (Hprint : forall indent,
               PrintMapWithIndent m indent = PrintMapWithIndent m' indent).
    { intros indent. rewrite !PrintMapWithIndent_loop, Hsorted.
      rewrite (map_ext_in (fun k => printKey k (lookup k m) indent)
                          (fun k => printKey k (lookup k m') indent));
        [reflexivity|].
      intros k Hk. apply (IH k (Hin k Hk)). }
    split; [|split].
    + intros k indent. now rewrite !printKey_map, Hprint.
    + intros i indent. unfold printItem. now rewrite Hprint.
    + rewrite !fmtV_map, Hsorted.
      rewrite (map_ext_in (fun k => k ++ ":" ++ fmtV (lookup k m))
                          (fun k => k ++ ":" ++ fmtV (lookup k m')));
        [reflexivity|].
      intros k Hk. now rewrite (proj2 (proj2 (IH k (Hin k Hk)))).
  - assert (Hfmt : fmtV (VSlice items) = fmtV (VSlice items')).
    { cbn [fmtV].
      replace (map fmtV items') with (map fmtV items); [reflexivity|].
      apply nth_ext with (d := fmtV VNil) (d' := fmtV VNil);
        [now rewrite !length_map|].
      intros i Hi. rewrite length_map in Hi.
      rewrite !map_nth. apply (IH i Hi). }
    split; [|split]; [|intros i indent; unfold printItem; now rewrite Hfmt|exact Hfmt].
    intros k indent. rewrite !printKey_slice, <- Hlen.
    rewrite (map_ext_in
               (fun i => printItem (Z.of_nat i) (nth i items VNil) indent)
               (fun i => printItem (Z.of_nat i) (nth i items' VNil) indent));
      [reflexivity|].
    intros i Hi. apply in_seq in Hi. apply (IH i); lia.
Qed.

Lemma sameMap_tree (m m' : gomap) (indent : string) :
  sameValue (VMap m) (VMap m') ->
  PrintMapWithIndent m indent = PrintMapWithIndent m' indent.
Proof.
  intros Hsame. inversion Hsame as [| | | | |? ? Hnd Hperm Hvalues|]; subst.
  rewrite !PrintMapWithIndent_loop.
  rewrite <- (sortStrings_order_free _ _ Hperm).
  apply (f_equal catAll). apply map_ext_in. intros k Hk.
  apply sameValue_rendering, Hvalues.
  apply Permutation_in with (l := sortStrings (keys m)); [|assumption].
  symmetry. apply sortStrings_permutation.
Qed.

Ltac distinct_keys :=
  repeat constructor; simpl; intuition discriminate.

Ltac each_key H :=
  simpl in H; repeat (destruct H as [<-|H]; [simpl|]); [..|destruct H].

Lemma john_same_map : sameValue (VMap johnNameFirst) (VMap johnAgeFirst).
Proof.
  apply same_map.
  - distinct_keys.
  - apply perm_swap.
  - intros k Hk. each_key Hk; constructor.
Qed.

Lemma userExample_same_map : sameValue (VMap userExample) (VMap userExampleReordered).
Proof.
  apply same_map.
  - distinct_keys.
  - apply Permutation_refl.
  - intros k Hk. each_key Hk. apply same_map.
    + distinct_keys.
    + apply perm_swap.
    + intros k' Hk'. each_key Hk'; [constructor|].
      apply same_slice; [reflexivity|].
      intros i Hi. simpl in Hi.
      do 3 (destruct i as [|i]; [simpl; constructor|]). lia.
Qed.

(** C3 (the code departs from it).  The flat rendering follows the order
    in which the loop meets the entries, and that order is not fixed by
    the map: the same map rendered along two iteration orders gives two
    different strings. *)
Theorem flat_rendering_follows_iteration_order :
  sameValue (VMap johnNameFirst) (VMap johnAgeFirst) /\
  MapAsPrettyString johnNameFirst [] = "{name: " ++ quote ++ "John" ++ quote ++ ", age: 30}" /\
  MapAsPrettyString johnAgeFirst [] = "{age: 30, name: " ++ quote ++ "John" ++ quote ++ "}" /\
  MapAsPrettyString johnNameFirst [] <> MapAsPrettyString johnAgeFirst [].
Proof.
  split; [exact john_same_map|].
  repeat split; try reflexivity. discriminate.
Qed.

(** C4, as the code has it.  The flat renderer puts a string between
    double quotes when it is handed to ValueAsString or held as the value
    of a map entry, at any depth of nested maps, and leaves numbers and
    booleans bare, in the text [%v] gives them.  The tree renderer writes
    every scalar, under a key or as an element of a sequence, through
    [%v]: numbers and booleans as the flat renderer does, and strings
    bare.  A sequence reaches the flat renderer's output through [%v] as
    a whole, so the strings in it are bare there as well. *)
Theorem scalars_flat_quoted_tree_bare
        (m : gomap) (k indent s shown : string) (n i : Z) (b : bool)
        (items : list any) (v : any) :
  ValueAsString (VString s) = quote ++ s ++ quote /\
  ValueAsString (VInt n) = decimal n /\
  ValueAsString (VFloat shown) = shown /\
  ValueAsString (VBool b) = (if b then "true" else "false") /\
  ValueAsString (VMap m) = MapAsPrettyString m [] /\
  MapAsPrettyString m []
  = "{" ++ String.concat ", " (map (fun e => fst e ++ ": " ++ ValueAsString (snd e)) m)
        ++ "}" /\
  ValueAsString (VSlice items) = "[" ++ String.concat " " (map fmtV items) ++ "]" /\
  fmtV (VString s) = s /\
  fmtV (VInt n) = decimal n /\
  fmtV (VFloat shown) = shown /\
  fmtV (VBool b) = (if b then "true" else "false") /\
  PrintMapWithIndent m indent
  = catAll (map (fun k => printKey k (lookup k m) indent) (sortStrings (keys m))) /\
  printKey k (VString s) indent = indent ++ k ++ ": " ++ s ++ nl /\
  printKey k (VInt n) indent = indent ++ k ++ ": " ++ decimal n ++ nl /\
  printKey k (VFloat shown) indent = indent ++ k ++ ": " ++ shown ++ nl /\
  printKey k (VBool b) indent
  = indent ++ k ++ ": " ++ (if b then "true" else "false") ++ nl /\
  (scalar v -> printKey k v indent = indent ++ k ++ ": " ++ fmtV v ++ nl) /\
  printKey k (VSlice items) indent
  = indent ++ k ++ ": [" ++ nl
    ++ catAll (map (fun j => printItem (Z.of_nat j) (nth j items VNil) indent)
                   (seq 0 (List.length items)))
    ++ indent ++ "]" ++ nl /\
  (match v with VMap _ => False | _ => True end ->
   printItem i v indent = indent ++ "  [" ++ decimal i ++ "]: " ++ fmtV v ++ nl).
Proof.
  repeat split; try reflexivity.
  - apply prettyMap_entries.
  - apply PrintMapWithIndent_loop.
  - intros Hv. destruct v; simpl in Hv; try contradiction; reflexivity.
  - apply printKey_slice.
  - intros Hv. destruct v; try contradiction; reflexivity.
Qed.

Lemma scalars_flat_quoted_tree_bare_witness :
  printKey "name" (VString "John") "" = "" ++ "name" ++ ": " ++ fmtV (VString "John") ++ nl /\
  printItem 0 (VString "John") ""
  = "" ++ "  [" ++ decimal 0 ++ "]: " ++ fmtV (VString "John") ++ nl.
Proof.
  destruct (scalars_flat_quoted_tree_bare [] "name" "" "" "" 0 0 true [] (VString "John"))
    as (_ & _ & _ & _ & _ & _ & _ & _ & _ & _ & _ & _ & _ & _ & _ & _
        & Hscalar & _ & Hitem).
  split; [apply Hscalar | apply Hitem]; exact I.
Defined.

(** C4 as stated fails on the tree renderer: a string is written
    without quotes; and in the flat renderer a string inside a sequence
    is written without quotes too. *)
Lemma tree_rendering_does_not_quote :
  PrintMapWithIndent [("name", VString "John")] "" = "name: John" ++ nl /\
  PrintMapWithIndent [("name", VString "John")] ""
  <> "name: " ++ quote ++ "John" ++ quote ++ nl /\
  MapAsPrettyString [("names", VSlice [VString "John"])] [] = "{names: [John]}" /\
  MapAsPrettyString [("names", VSlice [VString "John"])] []
  <> "{names: [" ++ quote ++ "John" ++ quote ++ "]}".
Proof. repeat split; try reflexivity; discriminate. Qed.

(** C5.  PrintMapWithIndent writes the keys in ascending byte-wise order
    whatever order the maps list their entries in, at every depth; a
    nested map is a brace block printed with two more spaces of
    indentation; a sequence is a bracket block whose elements carry
    their positions counted from 0. *)
Theorem tree_rendering_sorted_indented_indexed
        (m : gomap) (indent k : string) (value : gomap) (items : list any) :
  StronglySorted byteLe (sortStrings (keys m)) /\
  Permutation (keys m) (sortStrings (keys m)) /\
  PrintMapWithIndent m indent
  = catAll (map (fun k => printKey k (lookup k m) indent) (sortStrings (keys m))) /\
  (forall m', sameValue (VMap m) (VMap m') ->
              PrintMapWithIndent m' indent = PrintMapWithIndent m indent) /\
  (forall m', NoDup (keys m) -> Permutation m m' ->
              PrintMapWithIndent m' indent = PrintMapWithIndent m indent) /\
  printKey k (VMap value) indent
  = indent ++ k ++ ": {" ++ nl
    ++ PrintMapWithIndent value (indent ++ "  ")
    ++ indent ++ "}" ++ nl /\
  printKey k (VSlice items) indent
  = indent ++ k ++ ": [" ++ nl
    ++ catAll (map (fun i => printItem (Z.of_nat i) (nth i items VNil) indent)
                   (seq 0 (List.length items)))
    ++ indent ++ "]" ++ nl.
Proof.
  split; [apply sortStrings_sorted|].
  split; [apply sortStrings_permutation|].
  split; [apply PrintMapWithIndent_loop|].
  split; [|split; [|split; [apply printKey_map | apply printKey_slice]]].
  - intros m' Hsame. symmetry. now apply sameMap_tree.
  - intros m' Hnd Hperm.
    rewrite !PrintMapWithIndent_loop.
    assert (Hkeys : Permutation (keys m) (keys m'))
      by (unfold keys; now apply Permutation_map).
    rewrite <- (sortStrings_order_free _ _ Hkeys).
    rewrite (map_ext_in (fun k => printKey k (lookup k m') indent)
                        (fun k => printKey k (lookup k m) indent)); [reflexivity|].
    intros k' Hk'. rewrite (lookup_order_free m m' k' Hnd Hperm); [reflexivity|].
    apply Permutation_in with (l := sortStrings (keys m)); [|assumption].
    symmetry. apply sortStrings_permutation.
Qed.

Lemma tree_rendering_sorted_indented_indexed_witness :
  PrintMapWithIndent userExampleReordered "" = PrintMapWithIndent userExample "" /\
  PrintMapWithIndent userExample ""
  = "user: {" ++ nl
    ++ "  name: John" ++ nl
    ++ "  scores: [" ++ nl
    ++ "    [0]: 95" ++ nl
    ++ "    [1]: 87" ++ nl
    ++ "    [2]: 92" ++ nl
    ++ "  ]" ++ nl
    ++ "}" ++ nl.
Proof.
  split; [|reflexivity].
  exact (proj1 (proj2 (proj2 (proj2
    (tree_rendering_sorted_indented_indexed userExample "" "" [] [])))) 
    userExampleReordered userExample_same_map).
Defined.

Section BoxExtras.

Variables warningColor messageColor infoColor errorColor
          successColor ongoingColor tagColor : string -> string.

(** The two outcomes of formatBox in this model: a box when the
    timestamp row can be padded (the timestamp is off, or the interior is
    at least the eight bytes of the timestamp wide), the panic of the
    negative count otherwise. *)
Lemma formatBox_outcome (l : Logger) (message tag : string)
        (colorFunc : string -> string) (now : Time) :
  1 <= padding l -> fits l message tag ->
  ((exists box, formatBox tagColor l message tag colorFunc now = Ok box)
   <-> (showTimestamp l = false \/ 8 <= interiorWidth l message tag)) /\
  ((showTimestamp l = true /\ interiorWidth l message tag < 8)
   <-> formatBox tagColor l message tag colorFunc now
       = Panic "strings: negative Repeat count").
Proof.
  intros Hp Hfit.
  assert (Hcases : (showTimestamp l = false \/ 8 <= interiorWidth l message tag)
                   \/ (showTimestamp l = true /\ interiorWidth l message tag < 8)).
  { destruct (showTimestamp l); [|now left; left].
    destruct (Z.le_gt_cases 8 (interiorWidth l message tag)); [left; now right|].
    right. split; [reflexivity | lia]. }
  destruct Hcases as [Hok|[Hshow Hnarrow]].
  - pose proof (formatBox_returns tagColor l message tag colorFunc now Hp Hfit Hok) as Hret.
    cbv zeta in Hret. split; split.
    + intros _. exact Hok.
    + intros _. eexists. exact Hret.
    + intros [Hshow Hnarrow]. destruct Hok as [Hoff|Hwide]; [congruence | lia].
    + intros Hpanic. rewrite Hret in Hpanic. discriminate.
  - pose proof (formatBox_panics tagColor l message tag colorFunc now
                                 Hp Hfit Hshow Hnarrow) as Hpanic.
    split; split.
    + intros [box Hbox]. rewrite Hpanic in Hbox. discriminate.
    + intros [Hoff|Hwide]; [congruence | lia].
    + intros _. exact Hpanic.
    + intros _. now split.
Qed.

(** X1.  formatBox panics on a negative Repeat count exactly when the
    timestamp is on and the interior is narrower than the eight bytes of
    the timestamp; in no other case is a count negative. *)
Theorem formatBox_negative_count_iff (l : Logger) (message tag : string)
        (colorFunc : string -> string) (now : Time) :
  1 <= padding l -> fits l message tag ->
  ((showTimestamp l = true /\ interiorWidth l message tag < 8)
   <-> formatBox tagColor l message tag colorFunc now
       = Panic "strings: negative Repeat count").
Proof.
  intros Hp Hfit. exact (proj2 (formatBox_outcome l message tag colorFunc now Hp Hfit)).
Qed.

(** In this model a logger made by NewLogger with the timestamp off, or
    with a padding of at least 4, gives a box for every message and tag
    in every category. *)
Lemma NewLogger_logger_returns (show : bool) (p : Z) (c : Category)
        (message : string) (tag : list string) (now : Time) :
  show = false \/ 4 <= p ->
  fits (NewLogger show p) message (tagStr tag) ->
  exists box,
    formatBox tagColor (NewLogger show p) message (tagStr tag)
              (categoryColor warningColor messageColor infoColor errorColor
                             successColor ongoingColor c) now = Ok box /\
    Logger_method warningColor messageColor infoColor errorColor
                  successColor ongoingColor tagColor
                  c (NewLogger show p) message tag now = Ok (box ++ nl).
Proof.
  intros Hsafe Hfit.
  assert (Hp : 1 <= padding (NewLogger show p)).
  { unfold NewLogger. simpl. destruct (Z.ltb_spec p 1); lia. }
  assert (Hpad : 4 <= p -> padding (NewLogger show p) = p).
  { intros H4. unfold NewLogger. simpl. destruct (Z.ltb_spec p 1); lia. }
  assert (Hok : showTimestamp (NewLogger show p) = false
                \/ 8 <= interiorWidth (NewLogger show p) message (tagStr tag)).
  { destruct Hsafe as [->|H4]; [now left|]. right.
    pose proof (proj1 (contentWidth_bounds _ _ _ Hfit)) as Hcw.
    unfold interiorWidth. rewrite (Hpad H4). lia. }
  pose proof (fun colorFunc =>
                formatBox_returns tagColor (NewLogger show p) message (tagStr tag)
                                  colorFunc now Hp Hfit Hok) as Hret.
  cbv zeta in Hret.
  eexists. split; [apply Hret|].
  destruct c; unfold Logger_method, Logger_Warning, Logger_Message, Logger_Info,
              Logger_Error, Logger_Success, Logger_Ongoing;
    cbv zeta; rewrite Hret; reflexivity.
Qed.

(** X2.  A logger made by NewLogger with the timestamp off, or with a
    padding of at least 4, never asks for a negative number of spaces:
    neither formatBox nor any of the six methods panics on a negative
    Repeat count, whatever the message and the tag. *)
Theorem NewLogger_logger_no_negative_count (show : bool) (p : Z) (c : Category)
        (message : string) (tag : list string) (now : Time) :
  show = false \/ 4 <= p ->
  fits (NewLogger show p) message (tagStr tag) ->
  formatBox tagColor (NewLogger show p) message (tagStr tag)
            (categoryColor warningColor messageColor infoColor errorColor
                           successColor ongoingColor c) now
  <> Panic "strings: negative Repeat count" /\
  Logger_method warningColor messageColor infoColor errorColor
                successColor ongoingColor tagColor
                c (NewLogger show p) message tag now
  <> Panic "strings: negative Repeat count".
Proof.
  intros Hsafe Hfit.
  destruct (NewLogger_logger_returns show p c message tag now Hsafe Hfit)
    as (box & Hbox & Hmethod).
  rewrite Hbox, Hmethod. split; discriminate.
Qed.

(** X3.  The package-level functions print a box exactly when some line of
    the message is at least 6 bytes long or the tag at least 2; on any
    shorter input they panic. *)
Theorem package_function_prints_iff (c : Category) (message : string)
        (tag : list string) (now : Time) :
  fits DefaultLogger message (tagStr tag) ->
  ((exists out,
       package_function warningColor messageColor infoColor errorColor
                        successColor ongoingColor tagColor c message tag now = Ok out)
   <-> (6 <= longest (Split message newline) \/ 2 <= len (tagStr tag))) /\
  ((longest (Split message newline) < 6 /\ len (tagStr tag) < 2)
   <-> package_function warningColor messageColor infoColor errorColor
                        successColor ongoingColor tagColor c message tag now
       = Panic "strings: negative Repeat count").
Proof.
  intros Hfit.
  assert (Hp : 1 <= padding DefaultLogger) by (simpl; lia).
  assert (Hw : interiorWidth DefaultLogger message (tagStr tag)
               = (if (tagStr tag =? "")%string
                  then longest (Split message newline)
                  else Z.max (longest (Split message newline)) (len (tagStr tag) + 4)) + 2).
  { unfold interiorWidth. rewrite contentWidth_max; [reflexivity|].
    unfold fits in Hfit. simpl padding in Hfit.
    pose proof (longest_nonneg (Split message newline)). lia. }
  assert (Hwide : 8 <= interiorWidth DefaultLogger message (tagStr tag)
                  <-> (6 <= longest (Split message newline) \/ 2 <= len (tagStr tag))).
  { rewrite Hw. destruct (String.eqb_spec (tagStr tag) "") as [E|E].
    - rewrite E. change (len "") with 0. lia.
    - assert (1 <= len (tagStr tag)).
      { destruct (tagStr tag); [congruence|].
        unfold len. simpl String.length. lia. }
      lia. }
  destruct (formatBox_outcome DefaultLogger message (tagStr tag)
              (categoryColor warningColor messageColor infoColor errorColor
                             successColor ongoingColor c) now Hp Hfit)
    as [Hret Hpanic].
  assert (Hrun :
    package_function warningColor messageColor infoColor errorColor
                     successColor ongoingColor tagColor c message tag now
    = (box <- formatBox tagColor DefaultLogger message (tagStr tag)
                        (categoryColor warningColor messageColor infoColor errorColor
                                       successColor ongoingColor c) now ;;
       Ok (Println box))) by (destruct c; reflexivity).
  rewrite Hrun. split; split.
  - intros [out Hout]. apply Hwide.
    destruct (formatBox tagColor DefaultLogger message (tagStr tag) _ now) as [box|why] eqn:E;
      [|discriminate].
    destruct (proj1 Hret (ex_intro _ box eq_refl)) as [Hoff|H8]; [discriminate|exact H8].
  - intros Hlong. destruct (proj2 Hret (or_intror (proj2 Hwide Hlong))) as [box ->].
    eexists. reflexivity.
  - intros [Hm Ht].
    rewrite (proj1 Hpanic); [reflexivity|]. split; [reflexivity|].
    destruct (Z.le_gt_cases 8 (interiorWidth DefaultLogger message (tagStr tag))) as [H8|H8];
      [apply Hwide in H8; lia | exact H8].
  - intros Hout.
    destruct (formatBox tagColor DefaultLogger message (tagStr tag) _ now) as [box|why] eqn:E;
      [discriminate|].
    cbn [bind] in Hout. inversion Hout; subst why.
    destruct (proj2 Hpanic eq_refl) as [_ Hnarrow].
    destruct (Z.le_gt_cases 6 (longest (Split message newline))) as [H6|H6];
      [assert (8 <= interiorWidth DefaultLogger message (tagStr tag))
         by (apply Hwide; now left); lia|].
    destruct (Z.le_gt_cases 2 (len (tagStr tag))) as [H2|H2];
      [assert (8 <= interiorWidth DefaultLogger message (tagStr tag))
         by (apply Hwide; now right); lia|].
    now split.
Qed.

(** X4.  In a box that is returned all rows, the timestamp row and the
    message rows alike, have the same length in bytes, there is one
    message row per line of the message, and the bottom border is three
    bytes for each column of the interior and for each corner. *)
Theorem box_rows_same_length (l : Logger) (message tag : string)
        (colorFunc : string -> string) (now : Time) :
  1 <= padding l -> fits l message tag ->
  (showTimestamp l = false \/ 8 <= interiorWidth l message tag) ->
  exists top,
    formatBox tagColor l message tag colorFunc now
    = Ok (colorFunc top ++ nl
          ++ catAll (map (fun row => colorFunc row ++ nl) (boxRows l message tag now))
          ++ colorFunc (bottomLeft ++ rule (interiorWidth l message tag) ++ bottomRight)) /\
    Forall (fun row => len row = interiorWidth l message tag + padding l + 6)
           (boxRows l message tag now) /\
    List.length (boxRows l message tag now)
    = ((if showTimestamp l then 1 else 0)
       + List.length (Split message newline))%nat /\
    len (bottomLeft ++ rule (interiorWidth l message tag) ++ bottomRight)
    = 3 * interiorWidth l message tag + 6 /\
    (tag = "" -> len top = 3 * interiorWidth l message tag + 6).
Proof.
  intros Hp Hfit Hts.
  destruct (width_no_wrap l message tag Hp Hfit) as (_ & Hpad & H3 & Hlines).
  assert (Hw : 0 <= interiorWidth l message tag).
  { pose proof (proj1 (contentWidth_bounds l message tag Hfit)).
    unfold interiorWidth. lia. }
  assert (Hrow : forall text, len text <= interiorWidth l message tag ->
                   len (boxRow l (interiorWidth l message tag) text)
                   = interiorWidth l message tag + padding l + 6).
  { intros text Htext. unfold boxRow. pose proof (len_nonneg text).
    rewrite !len_append, !len_replicate.
    change (len vertical) with 3. change (len " ") with 1. lia. }
  eexists. split; [|split; [|split; [|split]]].
  - rewrite (formatBox_returns tagColor l message tag colorFunc now Hp Hfit Hts).
    unfold boxRows. rewrite map_app, map_map.
    destruct (showTimestamp l); cbn [map app catAll fold_right append];
      now rewrite ?append_assoc.
  - unfold boxRows. apply Forall_app. split.
    + destruct (showTimestamp l) eqn:Hshow; [|constructor].
      destruct Hts as [Hoff|H8]; [discriminate|].
      constructor; [|constructor]. apply Hrow. rewrite len_Format. exact H8.
    + apply Forall_forall. intros row Hin. apply in_map_iff in Hin as (line & <- & Hin).
      apply Hrow. now apply Hlines.
  - unfold boxRows. rewrite length_app, length_map.
    now destruct (showTimestamp l).
  - unfold rule. rewrite !len_append, len_replicate.
    change (len bottomLeft) with 3. change (len bottomRight) with 3.
    change (len horizontal) with 3. lia.
  - intros ->. cbn [String.eqb]. unfold rule.
    rewrite !len_append, len_replicate.
    change (len topLeft) with 3. change (len topRight) with 3.
    change (len horizontal) with 3. lia.
Qed.

End BoxExtras.

(* ------------------------------------------------------------------ *)
(** ** Decimal text *)

Lemma decimal_chars (n : Z) : allChars digitOrMinus (decimal n) = true.
Proof.
  assert (Huint : forall d, allChars digitOrMinus (NilEmpty.string_of_uint d) = true)
    by (induction d; simpl; auto).
  assert (Hzero : forall d, allChars digitOrMinus (NilZero.string_of_uint d) = true)
    by (intros [| | | | | | | | | |]; try apply Huint; reflexivity).
  unfold decimal, NilZero.string_of_int.
  destruct (Z.to_int n); [apply Hzero|]. simpl. apply Hzero.
Qed.

Lemma withoutCommas_append (a b : string) :
  withoutCommas (a ++ b) = withoutCommas a ++ withoutCommas b.
Proof.
  induction a as [|c a IH]; [reflexivity|]. simpl.
  destruct (Ascii.eqb c ","); [exact IH | simpl; now rewrite IH].
Qed.

Lemma digitOrMinus_not_comma (c : ascii) :
  digitOrMinus c = true -> Ascii.eqb c "," = false.
Proof.
  destruct (Ascii.eqb_spec c ",") as [->|]; [discriminate | reflexivity].
Qed.

Lemma digitOrMinus_not_newline (c : ascii) :
  digitOrMinus c = true -> Ascii.eqb c newline = false.
Proof.
  destruct (Ascii.eqb_spec c newline) as [->|]; [discriminate | reflexivity].
Qed.

Lemma withoutCommas_decimalText (s : string) :
  allChars digitOrMinus s = true -> withoutCommas s = s.
Proof.
  induction s as [|c s IH]; [reflexivity|]. simpl.
  intros H. apply andb_true_iff in H as [Hc Hs].
  now rewrite (digitOrMinus_not_comma c Hc), (IH Hs).
Qed.

Lemma singleLine_decimalText (s : string) :
  allChars digitOrMinus s = true -> singleLine s = true.
Proof.
  induction s as [|c s IH]; [reflexivity|]. simpl.
  intros H. apply andb_true_iff in H as [Hc Hs].
  now rewrite (digitOrMinus_not_newline c Hc), (IH Hs).
Qed.

(* ------------------------------------------------------------------ *)
(** ** PrintList and PrintMap *)

Lemma PrintList_loop (list : Datatypes.list string) (written : string) (start : nat) :
  fold_left (fun '(written, i) item =>
               (written ++ (decimal (i + 1) ++ ": " ++ item ++ nl), i + 1))
            list (written, Z.of_nat start)
  = (written
     ++ catAll (map (fun i => decimal (Z.of_nat (start + i) + 1) ++ ": "
                              ++ nth i list "" ++ nl)
                    (seq 0 (List.length list))),
     Z.of_nat (start + List.length list)).
Proof.
  revert written start. induction list as [|item list IH]; intros written start.
  - simpl. rewrite append_nil_r. now replace (start + 0)%nat with start by lia.
  - cbn [fold_left].
    replace (Z.of_nat start + 1) with (Z.of_nat (S start)) at 2 by lia.
    rewrite IH. cbn [List.length seq map catAll fold_right nth].
    rewrite <- seq_shift, map_map.
    replace (start + 0)%nat with start by lia.
    replace (S start + List.length list)%nat with (start + S (List.length list))%nat by lia.
    rewrite (map_ext
               (fun i => decimal (Z.of_nat (S start + i) + 1) ++ ": "
                         ++ nth i list "" ++ nl)
               (fun i => decimal (Z.of_nat (start + S i) + 1) ++ ": "
                         ++ nth i list "" ++ nl))
      by (intros i; replace (S start + i)%nat with (start + S i)%nat by lia;
          reflexivity).
    now rewrite !append_assoc.
Qed.

(** PrintList writes the piece [n: item] and a line break for each
    element, numbered from 1 in the order of the list. *)
Lemma PrintList_pieces (list : Datatypes.list string) :
  PrintList list
  = catAll (map (fun i => decimal (Z.of_nat i + 1) ++ ": " ++ nth i list "" ++ nl)
                (seq 0 (List.length list))).
Proof.
  unfold PrintList. change 0 with (Z.of_nat 0).
  now rewrite PrintList_loop.
Qed.

Lemma sorted_keys_stay (a : Datatypes.list string) :
  StronglySorted byteLe a -> sortStrings a = a.
Proof.
  intros Hsorted. apply sorted_unique; [apply sortStrings_sorted | assumption|].
  symmetry. apply sortStrings_permutation.
Qed.

Lemma map_lookup_entries (f : string -> any -> string) (m : gomap) :
  NoDup (keys m) ->
  map (fun k => f k (lookup k m)) (keys m) = map (fun '(k, v) => f k v) m.
Proof.
  intros Hnd.
  assert (H : forall part, incl part m ->
            map (fun k => f k (lookup k m)) (keys part) = map (fun '(k, v) => f k v) part).
  { induction part as [|[k v] part IH]; intros Hincl; [reflexivity|].
    cbn [keys map fst]. f_equal.
    - rewrite (lookup_In m k v Hnd); [reflexivity|]. apply Hincl. now left.
    - apply IH. intros e He. apply Hincl. now right. }
  apply H, incl_refl.
Qed.

(** X6.  On a map that holds scalars only, PrintMapWithIndent with the empty
    indent writes what PrintMap writes when its loop meets the keys in
    ascending order. *)
Theorem PrintMap_scalars_sorted (m : gomap) :
  NoDup (keys m) -> StronglySorted byteLe (keys m) ->
  Forall (fun e => scalar (snd e)) m ->
  PrintMap m = PrintMapWithIndent m "".
Proof.
  intros Hnd Hsorted Hscalar.
  rewrite PrintMapWithIndent_loop, (sorted_keys_stay _ Hsorted).
  rewrite (map_lookup_entries (fun k v => printKey k v "") m Hnd).
  unfold PrintMap. f_equal. apply map_ext_in. intros [k v] Hin.
  rewrite Forall_forall in Hscalar. specialize (Hscalar (k, v) Hin).
  destruct v; simpl in Hscalar; try contradiction; reflexivity.
Qed.

(* ------------------------------------------------------------------ *)
(** ** Readable.go *)

(** X8.  ReadableTime drops the seconds from one minute on and the parts it
    shows are in range and add up to the input, short of the seconds
    dropped; below one minute, negative input included, it shows the
    seconds as they are. *)
Theorem ReadableTime_parts (seconds : Z) :
  (seconds < 60 -> ReadableTime seconds = decimal seconds ++ " seconds") /\
  (60 <= seconds < 3600 ->
   exists minutes,
     ReadableTime seconds = decimal minutes ++ " minutes" /\
     1 <= minutes < 60 /\
     60 * minutes <= seconds < 60 * minutes + 60) /\
  (3600 <= seconds < 86400 ->
   exists hours minutes,
     ReadableTime seconds
     = decimal hours ++ " hours " ++ decimal minutes ++ " minutes" /\
     1 <= hours < 24 /\ 0 <= minutes < 60 /\
     3600 * hours + 60 * minutes <= seconds < 3600 * hours + 60 * minutes + 60) /\
  (86400 <= seconds ->
   exists days hours minutes,
     ReadableTime seconds
     = decimal days ++ " days " ++ decimal hours ++ " hours "
       ++ decimal minutes ++ " minutes" /\
     1 <= days /\ 0 <= hours < 24 /\ 0 <= minutes < 60 /\
     86400 * days + 3600 * hours + 60 * minutes <= seconds
     < 86400 * days + 3600 * hours + 60 * minutes + 60).
Proof.
  unfold ReadableTime. repeat split.
  - intros H. destruct (Z.ltb_spec seconds 60); [reflexivity | lia].
  - intros H. destruct (Z.ltb_spec seconds 60); [lia|].
    destruct (Z.ltb_spec seconds 3600); [|lia].
    exists (Z.quot seconds 60). split; [reflexivity|].
    Z.quot_rem_to_equations. lia.
  - intros H. destruct (Z.ltb_spec seconds 60); [lia|].
    destruct (Z.ltb_spec seconds 3600); [lia|].
    destruct (Z.ltb_spec seconds 86400); [|lia].
    exists (Z.quot seconds 3600), (Z.quot (Z.rem seconds 3600) 60).
    split; [reflexivity|]. Z.quot_rem_to_equations. lia.
  - intros H. destruct (Z.ltb_spec seconds 60); [lia|].
    destruct (Z.ltb_spec seconds 3600); [lia|].
    destruct (Z.ltb_spec seconds 86400); [lia|].
    exists (Z.quot seconds 86400), (Z.quot (Z.rem seconds 86400) 3600),
           (Z.quot (Z.rem seconds 3600) 60).
    split; [reflexivity|]. Z.quot_rem_to_equations. lia.
Qed.

Lemma list_ascii_append (a b : string) :
  list_ascii_of_string (a ++ b) = (list_ascii_of_string a ++ list_ascii_of_string b)%list.
Proof. induction a as [|c a IH]; simpl; [reflexivity | now rewrite IH]. Qed.

Lemma length_list_ascii (s : string) :
  List.length (list_ascii_of_string s) = String.length s.
Proof. induction s as [|c s IH]; simpl; [reflexivity | now rewrite IH]. Qed.

Lemma get_list_ascii (s : string) (j : nat) :
  String.get j s = nth_error (list_ascii_of_string s) j.
Proof.
  revert j. induction s as [|c s IH]; intros [|j]; simpl; try reflexivity. apply IH.
Qed.

(** The loop of ReadableCount in closed form. *)
Lemma separateThousands_loop (total : Z) (chars : Datatypes.list ascii)
      (written : string) (i : Z) :
  0 <= i -> total = i + Z.of_nat (List.length chars) ->
  fst (fold_left (fun '(result, i) char =>
                    let result :=
                      if (i >? 0) && (Z.rem (total - i) 3 =? 0)
                      then result ++ "," else result in
                    (result ++ String char "", i + 1))
                 chars (written, i))
  = written ++ string_of_list_ascii (separated (i =? 0) chars).
Proof.
  revert written i. induction chars as [|c chars IH]; intros written i Hi Htotal.
  - simpl. now rewrite append_nil_r.
  - cbn [fold_left]. cbv zeta.
    rewrite IH by (cbn [List.length] in Htotal; lia).
    replace (i + 1 =? 0) with false by (symmetry; apply Z.eqb_neq; lia).
    cbn [separated].
    assert (Hcomma : (i >? 0) && (Z.rem (total - i) 3 =? 0)
                     = negb (i =? 0) && (List.length (c :: chars) mod 3 =? 0)%nat).
    { f_equal.
      - destruct (Z.gtb_spec i 0), (Z.eqb_spec i 0); simpl; try reflexivity; lia.
      - replace (total - i) with (Z.of_nat (List.length (c :: chars))) by lia.
        rewrite Z.rem_mod_nonneg by lia.
        rewrite <- (Nat2Z.inj_mod _ 3).
        destruct (Nat.eqb_spec (List.length (c :: chars) mod 3) 0) as [E|E].
        + rewrite E. reflexivity.
        + apply Z.eqb_neq. intros Hz. apply E. now apply Nat2Z.inj. }
    rewrite Hcomma.
    destruct (negb (i =? 0) && (List.length (c :: chars) mod 3 =? 0)%nat);
      cbn [app string_of_list_ascii]; rewrite !append_assoc; reflexivity.
Qed.

Lemma separateThousands_separated (str : string) :
  separateThousands str
  = string_of_list_ascii (separated true (list_ascii_of_string str)).
Proof.
  unfold separateThousands.
  rewrite (separateThousands_loop (len str)); [reflexivity | lia|].
  unfold len. now rewrite length_list_ascii.
Qed.

Lemma withoutCommas_separated (first : bool) (chars : Datatypes.list ascii) :
  forallb (fun c => negb (Ascii.eqb c ",")) chars = true ->
  withoutCommas (string_of_list_ascii (separated first chars))
  = string_of_list_ascii chars.
Proof.
  revert first. induction chars as [|c chars IH]; intros first Hchars; [reflexivity|].
  cbn [forallb] in Hchars. apply andb_true_iff in Hchars as [Hc Hrest].
  apply negb_true_iff in Hc.
  cbn [separated].
  destruct (negb first && (List.length (c :: chars) mod 3 =? 0)%nat);
    cbn [app string_of_list_ascii withoutCommas];
    rewrite ?Hc; cbn [Ascii.eqb]; rewrite ?Hc; simpl; rewrite ?Hc;
    now rewrite (IH false Hrest).
Qed.

(** Where the commas of [separated] are: with no comma among the
    characters, a position holds a comma exactly when its distance from
    the end is a multiple of four. *)
From Stdlib Require Import ZifyNat.

Ltac divlia := zify; Z.to_euclidean_division_equations; lia.

Lemma separated_commas (chars : Datatypes.list ascii) :
  forallb (fun c => negb (Ascii.eqb c ",")) chars = true ->
  List.length (separated false chars)
  = (List.length chars + List.length chars / 3)%nat /\
  forall j c, nth_error (separated false chars) j = Some c ->
              (c = ","%char <-> ((List.length (separated false chars) - j) mod 4 = 0)%nat).
Proof.
  induction chars as [|c0 chars IH]; intros Hchars.
  - split; [reflexivity|]. intros [|j] c H; discriminate.
  - cbn [forallb] in Hchars. apply andb_true_iff in Hchars as [Hc0 Hrest].
    apply negb_true_iff, Ascii.eqb_neq in Hc0.
    destruct (IH Hrest) as [Hlen Hpos].
    cbn [separated negb andb].
    set (rest := separated false chars) in *.
    set (n := List.length chars) in *.
    change (List.length (c0 :: chars)) with (S n).
    destruct (Nat.eqb_spec (S n mod 3) 0) as [E|E]; cbn [app List.length].
    + split; [rewrite Hlen; divlia|].
      intros [|[|j]] c H; cbn [nth_error] in H.
      * inversion H; subst c. split; [intros _|reflexivity]. rewrite Hlen. divlia.
      * inversion H; subst c. split; [congruence|]. rewrite Hlen. divlia.
      * rewrite (Hpos j c H).
        replace (S (S (List.length rest)) - S (S j))%nat
          with (List.length rest - j)%nat by divlia.
        reflexivity.
    + split; [rewrite Hlen; divlia|].
      intros [|j] c H; cbn [nth_error] in H.
      * inversion H; subst c. split; [congruence|]. rewrite Hlen. divlia.
      * rewrite (Hpos j c H).
        replace (S (List.length rest) - S j)%nat with (List.length rest - j)%nat by divlia.
        reflexivity.
Qed.

Lemma decimal_no_comma (n : Z) :
  forallb (fun c => negb (Ascii.eqb c ",")) (list_ascii_of_string (decimal n)) = true.
Proof.
  pose proof (decimal_chars n) as H.
  induction (decimal n) as [|c s IH]; [reflexivity|].
  simpl in H. apply andb_true_iff in H as [Hc Hs]. cbn [list_ascii_of_string forallb].
  now rewrite (digitOrMinus_not_comma c Hc), (IH Hs).
Qed.

(** X9.  ReadableCount only adds commas: taking them out again gives the
    decimal text of the count, for every count.  Below 1000, negative
    counts included, it adds none. *)
Theorem ReadableCount_digits_kept (count : Z) :
  withoutCommas (ReadableCount count) = decimal count /\
  (count < 1000 -> ReadableCount count = decimal count).
Proof.
  unfold ReadableCount. cbv zeta. destruct (Z.ltb_spec count 1000).
  - split; [|reflexivity]. apply withoutCommas_decimalText, decimal_chars.
  - split; [|lia].
    rewrite separateThousands_separated, withoutCommas_separated.
    + apply string_of_list_ascii_of_string.
    + apply decimal_no_comma.
Qed.

(** X10.  From 1000 on, the text of ReadableCount is the digits and one
    comma for every three digits after the first; it does not begin with
    a comma; and a position holds a comma exactly when its distance from
    the end of the text is a multiple of four.  So the digits stand in
    groups of three counted from the right, after a first group of one
    to three digits. *)
Theorem ReadableCount_groups_of_three (count : Z) :
  1000 <= count ->
  String.length (ReadableCount count)
  = (String.length (decimal count) + (String.length (decimal count) - 1) / 3)%nat /\
  String.get 0 (ReadableCount count) <> Some ","%char /\
  forall (j : nat) (c : ascii),
    String.get j (ReadableCount count) = Some c ->
    (c = ","%char <-> ((String.length (ReadableCount count) - j) mod 4 = 0)%nat).
Proof.
  intros Hbig. unfold ReadableCount. cbv zeta.
  destruct (Z.ltb_spec count 1000); [lia|].
  rewrite separateThousands_separated.
  rewrite <- !length_list_ascii, list_ascii_of_string_of_list_ascii.
  pose proof (decimal_no_comma count) as Hchars.
  destruct (list_ascii_of_string (decimal count)) as [|c0 chars].
  - split; [reflexivity|]. split; [discriminate|].
    intros j c Hget. destruct j; discriminate.
  - cbn [forallb] in Hchars. apply andb_true_iff in Hchars as [Hc0 Hrest].
    apply negb_true_iff, Ascii.eqb_neq in Hc0.
    destruct (separated_commas chars Hrest) as [Hlen Hpos].
    cbn [separated negb andb app List.length].
    split; [rewrite Hlen; divlia|]. split.
    + cbn [string_of_list_ascii String.get]. congruence.
    + intros j c. rewrite get_list_ascii, list_ascii_of_string_of_list_ascii.
      destruct j as [|j]; cbn [nth_error]; intros Hget.
      * inversion Hget; subst c. split; [congruence|]. rewrite Hlen. divlia.
      * rewrite (Hpos j c Hget).
        replace (S (List.length (separated false chars)) - S j)%nat
          with (List.length (separated false chars) - j)%nat by lia.
        reflexivity.
Qed.

Section FileSizeFacts.

Variable twoDecimals : Z -> Z -> string.

(** X11.  ReadableMemoryUsage converts its unsigned argument to [int64]: up
    to 2^63 - 1 it is ReadableFileSize of the same number, and from
    2^63 on the number wraps to a negative one, which is reported as
    that many bytes. *)
Theorem ReadableMemoryUsage_wraps (bytes : Z) :
  (0 <= bytes < 2 ^ 63 ->
   ReadableMemoryUsage twoDecimals bytes = ReadableFileSize twoDecimals bytes) /\
  (2 ^ 63 <= bytes < 2 ^ 64 ->
   ReadableMemoryUsage twoDecimals bytes = decimal (bytes - 2 ^ 64) ++ " B" /\
   bytes - 2 ^ 64 < 0).
Proof.
  unfold ReadableMemoryUsage. split; intros H.
  - rewrite wrap_small; [reflexivity|]. unfold minInt, maxInt. lia.
  - assert (Hwrap : wrap bytes = bytes - 2 ^ 64).
    { unfold wrap.
      replace (bytes + 2 ^ 63) with ((bytes - 2 ^ 63) + 1 * 2 ^ 64) by lia.
      rewrite Z.mod_add by lia. rewrite Z.mod_small; lia. }
    rewrite Hwrap. split; [|lia].
    unfold ReadableFileSize. destruct (Z.ltb_spec (bytes - 2 ^ 64) 1024); [reflexivity | lia].
Qed.

End FileSizeFacts.

(* ------------------------------------------------------------------ *)
(** ** Indentation of the tree renderer *)

Lemma any_nested_ind (P : any -> Prop)
      (Hstring : forall s, P (VString s)) (Hint : forall n, P (VInt n))
      (Hfloat : forall shown, P (VFloat shown))
      (Hbool : forall b, P (VBool b)) (Hnil : P VNil)
      (Hmap : forall m, Forall (fun e => P (snd e)) m -> P (VMap m))
      (Hslice : forall items, Forall P items -> P (VSlice items)) :
  forall v, P v.
Proof.
  fix self 1. intros [s|n|shown|b| |m|items].
  - apply Hstring.
  - apply Hint.
  - apply Hfloat.
  - apply Hbool.
  - apply Hnil.
  - apply Hmap.
    revert m. fix each 1. intros [|[k x] m].
    + constructor.
    + constructor; [apply self | apply each].
  - apply Hslice.
    revert items. fix each 1. intros [|x items].
    + constructor.
    + constructor; [apply self | apply each].
Qed.

Lemma singleLine_append (a b : string) :
  singleLine (a ++ b) = singleLine a && singleLine b.
Proof.
  induction a as [|c a IH]; [reflexivity|]. simpl. rewrite IH.
  now rewrite andb_assoc.
Qed.

Lemma indentFrom_append (lineStart : bool) (indent a b : string) :
  indentFrom lineStart indent (a ++ b)
  = indentFrom lineStart indent a ++ indentFrom (atLineStart lineStart a) indent b.
Proof.
  revert lineStart. induction a as [|c a IH]; intros lineStart; [reflexivity|].
  cbn [append indentFrom atLineStart]. rewrite IH.
  destruct lineStart; cbn [append]; now rewrite ?append_assoc.
Qed.

Lemma atLineStart_append (lineStart : bool) (a b : string) :
  atLineStart lineStart (a ++ b) = atLineStart (atLineStart lineStart a) b.
Proof.
  revert lineStart. induction a as [|c a IH]; intros lineStart; [reflexivity|].
  cbn [append atLineStart]. apply IH.
Qed.

Lemma indentFrom_inside_line (indent line : string) :
  singleLine line = true -> indentFrom false indent line = line.
Proof.
  induction line as [|c line IH]; [reflexivity|]. simpl.
  intros H. apply andb_true_iff in H as [Hc Hline]. apply negb_true_iff in Hc.
  now rewrite Hc, (IH Hline).
Qed.

Lemma atLineStart_inside_line (line : string) :
  singleLine line = true -> atLineStart false line = false.
Proof.
  induction line as [|c line IH]; [reflexivity|]. simpl.
  intros H. apply andb_true_iff in H as [Hc Hline]. apply negb_true_iff in Hc.
  now rewrite Hc, (IH Hline).
Qed.

(** One line, with its line break, gets the indent in front. *)
Lemma indent_line (indent line : string) :
  singleLine line = true ->
  indentLines indent (line ++ nl) = indent ++ line ++ nl /\
  atLineStart true (line ++ nl) = true.
Proof.
  intros Hline. unfold indentLines. split.
  - destruct line as [|c line]; [reflexivity|].
    simpl in Hline. apply andb_true_iff in Hline as [Hc Hline].
    apply negb_true_iff in Hc.
    cbn [append indentFrom]. rewrite Hc.
    rewrite indentFrom_append, (indentFrom_inside_line _ _ Hline).
    rewrite (atLineStart_inside_line _ Hline). reflexivity.
  - rewrite atLineStart_append. reflexivity.
Qed.

Lemma indent_blocks (indent : string) (blocks : list string) :
  Forall (fun block => atLineStart true block = true) blocks ->
  indentLines indent (catAll blocks) = catAll (map (indentLines indent) blocks) /\
  atLineStart true (catAll blocks) = true.
Proof.
  unfold indentLines.
  induction 1 as [|block blocks Hblock Hblocks [IH1 IH2]]; [now split|].
  cbn [catAll fold_right map]. fold (catAll blocks).
  fold (catAll (map (indentFrom true indent) blocks)).
  rewrite indentFrom_append, atLineStart_append, Hblock, IH1. now split.
Qed.

Lemma indent_catAll (indent : string) (blocks : list string) :
  Forall (fun block => atLineStart true block = true) blocks ->
  indentLines indent (catAll blocks) = catAll (map (indentLines indent) blocks).
Proof. intros H. now apply indent_blocks. Qed.

Lemma complete_catAll (blocks : list string) :
  Forall (fun block => atLineStart true block = true) blocks ->
  atLineStart true (catAll blocks) = true.
Proof. intros H. now apply (indent_blocks ""). Qed.

Lemma indent_framed (indent first body last : string) :
  singleLine first = true -> atLineStart true body = true -> singleLine last = true ->
  indentLines indent ((first ++ nl) ++ body ++ (last ++ nl))
  = (indent ++ first ++ nl) ++ indentLines indent body ++ (indent ++ last ++ nl).
Proof.
  intros Hfirst Hbody Hlast. unfold indentLines.
  rewrite (indentFrom_append true indent (first ++ nl)),
          (proj2 (indent_line indent first Hfirst)).
  rewrite (indentFrom_append true indent body), Hbody.
  fold (indentLines indent (first ++ nl)). fold (indentLines indent (last ++ nl)).
  now rewrite (proj1 (indent_line indent first Hfirst)),
              (proj1 (indent_line indent last Hlast)).
Qed.

Lemma printKey_complete (k : string) (v : any) (indent : string) :
  atLineStart true (printKey k v indent) = true.
Proof.
  destruct v; cbn [printKey]; rewrite !atLineStart_append; reflexivity.
Qed.

Lemma printItem_complete (i : Z) (v : any) (indent : string) :
  atLineStart true (printItem i v indent) = true.
Proof.
  destruct v; cbn [printItem]; rewrite !atLineStart_append; reflexivity.
Qed.

Lemma complete_keys (m : gomap) (indent : string) (ks : list string) :
  Forall (fun block => atLineStart true block = true)
         (map (fun k => printKey k (lookup k m) indent) ks).
Proof.
  apply Forall_forall. intros block Hin.
  apply in_map_iff in Hin as (k & <- & _). apply printKey_complete.
Qed.

Lemma complete_items (items : list any) (indent : string) (positions : list nat) :
  Forall (fun block => atLineStart true block = true)
         (map (fun i => printItem (Z.of_nat i) (nth i items VNil) indent) positions).
Proof.
  apply Forall_forall. intros block Hin.
  apply in_map_iff in Hin as (i & <- & _). apply printItem_complete.
Qed.

Lemma PrintMapWithIndent_complete (m : gomap) (indent : string) :
  atLineStart true (PrintMapWithIndent m indent) = true.
Proof.
  rewrite PrintMapWithIndent_loop. apply complete_catAll, complete_keys.
Qed.

Lemma lookup_entry (m : gomap) (k : string) :
  In k (keys m) -> In (k, lookup k m) m.
Proof.
  induction m as [|[k' v'] m IH]; intros Hin; [destruct Hin|].
  cbn [lookup]. destruct (String.eqb_spec k k') as [->|Hne]; [now left|].
  right. apply IH. destruct Hin as [E|Hin]; [now symmetry in E | assumption].
Qed.

Lemma singleLine_concat (sep : string) (pieces : list string) :
  singleLine sep = true -> Forall (fun piece => singleLine piece = true) pieces ->
  singleLine (String.concat sep pieces) = true.
Proof.
  intros Hsep. induction 1 as [|piece pieces Hpiece Hpieces IH]; [reflexivity|].
  destruct pieces as [|next pieces]; [exact Hpiece|].
  change (String.concat sep (piece :: next :: pieces))
    with (piece ++ sep ++ String.concat sep (next :: pieces)).
  now rewrite !singleLine_append, Hpiece, Hsep, IH.
Qed.

Lemma indent_one_line (indent line : string) :
  singleLine line = true -> indentLines indent (line ++ nl) = indent ++ line ++ nl.
Proof. intros Hline. apply indent_line, Hline. Qed.

Lemma singleLine_decimal (n : Z) : singleLine (decimal n) = true.
Proof. apply singleLine_decimalText, decimal_chars. Qed.

Ltac one_line :=
  rewrite ?singleLine_append, ?singleLine_decimal;
  repeat match goal with
         | H : singleLine _ = true |- _ => rewrite H
         end;
  reflexivity.

Lemma printItem_line (i : Z) (v : any) (indent : string) :
  match v with VMap _ => False | _ => True end ->
  printItem i v indent = (indent ++ "  [" ++ decimal i ++ "]: " ++ fmtV v) ++ nl.
Proof.
  destruct v; intros Hv; try contradiction; cbn [printItem];
    now rewrite !append_assoc.
Qed.

Lemma printItem_indent_line (i : Z) (v : any) (a b : string) :
  match v with VMap _ => False | _ => True end ->
  singleLine (fmtV v) = true -> singleLine b = true ->
  printItem i v (a ++ b) = indentLines a (printItem i v b).
Proof.
  intros Hv Hfmt Hb. rewrite !printItem_line by exact Hv.
  rewrite indent_one_line by one_line. now rewrite !append_assoc.
Qed.

Lemma printKey_map_framed (k : string) (value : gomap) (indent : string) :
  printKey k (VMap value) indent
  = ((indent ++ k ++ ": {") ++ nl)
    ++ PrintMapWithIndent value (indent ++ "  ")
    ++ ((indent ++ "}") ++ nl).
Proof. rewrite printKey_map. now rewrite !append_assoc. Qed.

Lemma printItem_map_framed (i : Z) (nested : gomap) (indent : string) :
  printItem i (VMap nested) indent
  = ((indent ++ "  [" ++ decimal i ++ "]: {") ++ nl)
    ++ PrintMapWithIndent nested (indent ++ "    ")
    ++ ((indent ++ "  }") ++ nl).
Proof. cbn [printItem]. now rewrite !append_assoc. Qed.

Lemma printKey_slice_framed (k : string) (items : list any) (indent : string) :
  printKey k (VSlice items) indent
  = ((indent ++ k ++ ": [") ++ nl)
    ++ catAll (map (fun i => printItem (Z.of_nat i) (nth i items VNil) indent)
                   (seq 0 (List.length items)))
    ++ ((indent ++ "]") ++ nl).
Proof. rewrite printKey_slice. now rewrite !append_assoc. Qed.

(** The indent handed to the tree renderer only ever goes in front of
    the lines it writes. *)
Lemma printKey_indent (v : any) :
  plainText v = true ->
  (forall k a b, singleLine k = true -> singleLine b = true ->
                 printKey k v (a ++ b) = indentLines a (printKey k v b)) /\
  (forall i a b, singleLine b = true ->
                 printItem i v (a ++ b) = indentLines a (printItem i v b)) /\
  singleLine (fmtV v) = true.
Proof.
  assert (Hscalar : forall w, scalar w -> singleLine (fmtV w) = true ->
            (forall k a b, singleLine k = true -> singleLine b = true ->
                           printKey k w (a ++ b) = indentLines a (printKey k w b)) /\
            (forall i a b, singleLine b = true ->
                           printItem i w (a ++ b) = indentLines a (printItem i w b)) /\
            singleLine (fmtV w) = true).
  { intros w Hv Hfmt. split; [|split; [|exact Hfmt]].
    - intros k a b Hk Hb.
      rewrite !printKey_scalar
        by (destruct w; simpl in Hv; try contradiction; exact I).
      replace (b ++ k ++ ": " ++ fmtV w ++ nl) with ((b ++ k ++ ": " ++ fmtV w) ++ nl)
        by now rewrite !append_assoc.
      rewrite indent_one_line by one_line. now rewrite !append_assoc.
    - intros i a b Hb.
      assert (Hitem : forall x, printItem i w x
                                = (x ++ "  [" ++ decimal i ++ "]: " ++ fmtV w) ++ nl).
      { intros x. destruct w; simpl in Hv; try contradiction;
          cbn [printItem]; now rewrite !append_assoc. }
      rewrite !Hitem. rewrite indent_one_line by one_line. now rewrite !append_assoc. }
  induction v as [s|n|shown|b| |m IH|items IH] using any_nested_ind; intros Hplain.
  - apply Hscalar; [exact I | exact Hplain].
  - apply Hscalar; [exact I | apply singleLine_decimal].
  - apply Hscalar; [exact I | exact Hplain].
  - apply Hscalar; [exact I | now destruct b].
  - apply Hscalar; [exact I | reflexivity].
  - cbn [plainText] in Hplain. rewrite forallb_forall in Hplain.
    rewrite Forall_forall in IH.
    assert (Hkeys : forall k, In k (keys m) ->
              singleLine k = true /\
              (forall k' a b, singleLine k' = true -> singleLine b = true ->
                 printKey k' (lookup k m) (a ++ b)
                 = indentLines a (printKey k' (lookup k m) b)) /\
              singleLine (fmtV (lookup k m)) = true).
    { intros k Hk. apply lookup_entry in Hk.
      specialize (Hplain _ Hk). cbn beta iota in Hplain.
      apply andb_true_iff in Hplain as [Hkline Hvalue].
      destruct (IH _ Hk Hvalue) as (Hkey & _ & Hfmt). auto. }
    assert (Hsorted : forall k, In k (sortStrings (keys m)) -> In k (keys m)).
    { intros k Hk. apply Permutation_in with (l := sortStrings (keys m)); [|assumption].
      symmetry. apply sortStrings_permutation. }
    assert (Hshift : forall a b, singleLine b = true ->
              PrintMapWithIndent m (a ++ b) = indentLines a (PrintMapWithIndent m b)).
    { intros a b Hb. rewrite !PrintMapWithIndent_loop.
      rewrite indent_catAll by apply complete_keys.
      rewrite map_map. f_equal. apply map_ext_in. intros k Hk.
      destruct (Hkeys k (Hsorted k Hk)) as (Hkline & Hkey & _). now apply Hkey. }
    split; [|split].
    + intros k a b Hk Hb. rewrite !printKey_map_framed.
      rewrite indent_framed
        by (first [apply PrintMapWithIndent_complete | one_line]).
      rewrite (append_assoc a b "  "), Hshift by one_line.
      now rewrite !append_assoc.
    + intros i a b Hb. rewrite !printItem_map_framed.
      rewrite indent_framed
        by (first [apply PrintMapWithIndent_complete | one_line]).
      rewrite (append_assoc a b "    "), Hshift by one_line.
      now rewrite !append_assoc.
    + rewrite fmtV_map. rewrite !singleLine_append.
      rewrite singleLine_concat; [reflexivity | reflexivity|].
      apply Forall_forall. intros piece Hin.
      apply in_map_iff in Hin as (k & <- & Hk).
      destruct (Hkeys k (Hsorted k Hk)) as (Hkline & _ & Hfmt). one_line.
  - cbn [plainText] in Hplain. rewrite forallb_forall in Hplain.
    rewrite Forall_forall in IH.
    assert (Hfmt : singleLine (fmtV (VSlice items)) = true).
    { cbn [fmtV]. rewrite !singleLine_append.
      rewrite singleLine_concat; [reflexivity | reflexivity|].
      apply Forall_forall. intros piece Hin.
      apply in_map_iff in Hin as (x & <- & Hx).
      apply (IH x Hx (Hplain x Hx)). }
    split; [|split; [|exact Hfmt]].
    + intros k a b Hk Hb. rewrite !printKey_slice_framed.
      rewrite indent_framed
        by (first [apply complete_catAll, complete_items | one_line]).
      rewrite indent_catAll by apply complete_items.
      rewrite map_map.
      rewrite (map_ext_in
                 (fun i => printItem (Z.of_nat i) (nth i items VNil) (a ++ b))
                 (fun i => indentLines a
                             (printItem (Z.of_nat i) (nth i items VNil) b)));
        [now rewrite !append_assoc|].
      intros i Hi. apply in_seq in Hi.
      assert (Hin : In (nth i items VNil) items) by (apply nth_In; lia).
      now apply (IH _ Hin (Hplain _ Hin)).
    + intros i a b Hb. now apply printItem_indent_line.
Qed.

(** X7.  The indent argument of PrintMapWithIndent is put in front of every
    line and changes nothing else: with keys and strings free of line
    breaks, the output for indent [a ++ b] is the output for [b] with
    [a] in front of each line. *)
Theorem PrintMapWithIndent_indent_prefixes_lines (m : gomap) (a b : string) :
  plainText (VMap m) = true -> singleLine b = true ->
  PrintMapWithIndent m (a ++ b) = indentLines a (PrintMapWithIndent m b) /\
  PrintMapWithIndent m a = indentLines a (PrintMapWithIndent m "").
Proof.
  intros Hplain Hb.
  assert (Hshift : forall x y, singleLine y = true ->
            PrintMapWithIndent m (x ++ y) = indentLines x (PrintMapWithIndent m y)).
  { intros x y Hy. cbn [plainText] in Hplain. rewrite forallb_forall in Hplain.
    rewrite !PrintMapWithIndent_loop.
    rewrite indent_catAll by apply complete_keys.
    rewrite map_map. f_equal. apply map_ext_in. intros k Hk.
    assert (Hin : In (k, lookup k m) m).
    { apply lookup_entry.
      apply Permutation_in with (l := sortStrings (keys m)); [|assumption].
      symmetry. apply sortStrings_permutation. }
    specialize (Hplain _ Hin). cbn beta iota in Hplain.
    apply andb_true_iff in Hplain as [Hkline Hvalue].
    now apply (printKey_indent (lookup k m) Hvalue). }
  split; [now apply Hshift|].
  rewrite <- (append_nil_r a) at 1. now apply Hshift.
Qed.

(* ------------------------------------------------------------------ *)
(** ** Concrete runs *)

Lemma package_function_prints_iff_witness :
  package_function plain plain plain plain plain plain plain CInfo "hi" [] noon
  = Panic "strings: negative Repeat count".
Proof.
  refine (proj1 (proj2 (package_function_prints_iff plain plain plain plain plain plain
                                                    plain CInfo "hi" [] noon _)) _).
  - unfold fits. vm_compute. discriminate.
  - split; vm_compute; reflexivity.
Defined.

Lemma box_rows_same_length_witness :
  exists top,
    formatBox plain DefaultLogger ("first line" ++ nl ++ "second") "TAG" plain noon
    = Ok (plain top ++ nl
          ++ catAll (map (fun row => plain row ++ nl)
                         (boxRows DefaultLogger ("first line" ++ nl ++ "second") "TAG" noon))
          ++ plain (bottomLeft
                    ++ rule (interiorWidth DefaultLogger ("first line" ++ nl ++ "second") "TAG")
                    ++ bottomRight)) /\
    Forall (fun row =>
              len row
              = interiorWidth DefaultLogger ("first line" ++ nl ++ "second") "TAG"
                + padding DefaultLogger + 6)
           (boxRows DefaultLogger ("first line" ++ nl ++ "second") "TAG" noon) /\
    List.length (boxRows DefaultLogger ("first line" ++ nl ++ "second") "TAG" noon)
    = ((if showTimestamp DefaultLogger then 1 else 0)
       + List.length (Split ("first line" ++ nl ++ "second") newline))%nat /\
    len (bottomLeft
         ++ rule (interiorWidth DefaultLogger ("first line" ++ nl ++ "second") "TAG")
         ++ bottomRight)
    = 3 * interiorWidth DefaultLogger ("first line" ++ nl ++ "second") "TAG" + 6 /\
    ("TAG" = "" ->
     len top = 3 * interiorWidth DefaultLogger ("first line" ++ nl ++ "second") "TAG" + 6).
Proof.
  refine (box_rows_same_length plain DefaultLogger ("first line" ++ nl ++ "second") "TAG"
                               plain noon _ _ _).
  - simpl. lia.
  - unfold fits. vm_compute. discriminate.
  - right. vm_compute. discriminate.
Defined.

Lemma PrintMap_scalars_sorted_witness :
  PrintMap johnAgeFirst = PrintMapWithIndent johnAgeFirst "".
Proof.
  apply PrintMap_scalars_sorted.
  - repeat constructor; simpl; intuition discriminate.
  - repeat constructor.
  - repeat constructor.
Defined.

Lemma PrintMapWithIndent_indent_prefixes_lines_witness :
  PrintMapWithIndent userExample ("> " ++ "  ")
  = indentLines "> " (PrintMapWithIndent userExample "  ") /\
  PrintMapWithIndent userExample "> "
  = indentLines "> " (PrintMapWithIndent userExample "").
Proof.
  apply PrintMapWithIndent_indent_prefixes_lines; reflexivity.
Defined.

Lemma ReadableTime_parts_witness :
  exists days hours minutes,
    ReadableTime 90061
    = decimal days ++ " days " ++ decimal hours ++ " hours "
      ++ decimal minutes ++ " minutes" /\
    1 <= days /\ 0 <= hours < 24 /\ 0 <= minutes < 60 /\
    86400 * days + 3600 * hours + 60 * minutes <= 90061
    < 86400 * days + 3600 * hours + 60 * minutes + 60.
Proof.
  refine (proj2 (proj2 (proj2 (ReadableTime_parts 90061))) _). lia.
Defined.

Lemma ReadableCount_digits_kept_witness :
  ReadableCount (-1234567) = decimal (-1234567).
Proof.
  refine (proj2 (ReadableCount_digits_kept (-1234567)) _). lia.
Defined.

Lemma ReadableMemoryUsage_wraps_witness :
  ReadableMemoryUsage (fun _ _ => "") (2 ^ 63) = decimal (2 ^ 63 - 2 ^ 64) ++ " B" /\
  2 ^ 63 - 2 ^ 64 < 0.
Proof.
  refine (proj2 (ReadableMemoryUsage_wraps (fun _ _ => "") (2 ^ 63)) _). lia.
Defined.

(* ------------------------------------------------------------------ *)
(** ** Reading a rendered list back *)

(** Where a quote-free element ends is fixed by the quote that follows
    it. *)
Lemma element_end (v w rest rest' : string) :
  quoteFree v = true -> quoteFree w = true ->
  v ++ quote ++ rest = w ++ quote ++ rest' -> v = w /\ rest = rest'.
Proof.
  unfold quoteFree. revert w.
  induction v as [|c v IH]; intros [|d w] Hv Hw Heq; simpl in Hv, Hw.
  - inversion Heq. now split.
  - exfalso. inversion Heq as [[Hd Hrest]]. subst d.
    apply andb_true_iff in Hw as [Hd _]. discriminate.
  - exfalso. inversion Heq as [[Hc Hrest]]. subst c.
    apply andb_true_iff in Hv as [Hc _]. discriminate.
  - apply andb_true_iff in Hv as [_ Hv]. apply andb_true_iff in Hw as [_ Hw].
    inversion Heq as [[Hcd Htail]]. subst d.
    destruct (IH w Hv Hw Htail) as [-> ->]. now split.
Qed.

Lemma later_elements (list list' : Datatypes.list string) :
  Forall (fun v => quoteFree v = true) list ->
  Forall (fun v => quoteFree v = true) list' ->
  catAll (map (fun v => ", " ++ quoted v) list) ++ "]"
  = catAll (map (fun v => ", " ++ quoted v) list') ++ "]" ->
  list = list'.
Proof.
  intros Hlist. revert list'.
  induction Hlist as [|v list Hv Hlist IH]; intros list' Hlist' Heq;
    destruct Hlist' as [|w list' Hw Hlist'].
  - reflexivity.
  - exfalso. cbn [map catAll fold_right] in Heq. unfold quoted in Heq.
    rewrite !append_assoc in Heq. discriminate.
  - exfalso. cbn [map catAll fold_right] in Heq. unfold quoted in Heq.
    rewrite !append_assoc in Heq. discriminate.
  - cbn [map catAll fold_right] in Heq. unfold quoted in Heq.
    rewrite !append_assoc in Heq. cbn [append] in Heq.
    inversion Heq as [Htail].
    destruct (element_end _ _ _ _ Hv Hw Htail) as [-> Hrest].
    f_equal. now apply IH.
Qed.

(** X12.  ListAsPrettyString can be read back when no element holds a double
    quote: two such lists with the same rendering are the same list. *)
Theorem ListAsPrettyString_quote_free_injective (list list' : Datatypes.list string) :
  Forall (fun v => quoteFree v = true) list ->
  Forall (fun v => quoteFree v = true) list' ->
  ListAsPrettyString list [] = ListAsPrettyString list' [] ->
  list = list'.
Proof.
  intros Hlist Hlist'. rewrite !ListAsPrettyString_elements.
  assert (Hshape : forall l,
            "[" ++ String.concat ", " (map quoted l) ++ "]"
            = match l with
              | [] => "[]"
              | v :: l' =>
                  "[" ++ quote ++ v ++ quote
                  ++ catAll (map (fun x => ", " ++ quoted x) l') ++ "]"
              end).
  { intros [|v l']; [reflexivity|].
    cbn [map]. rewrite concat_comma, map_map. unfold quoted at 1.
    now rewrite !append_assoc. }
  rewrite !Hshape.
  destruct Hlist as [|v list Hv Hlist], Hlist' as [|w list' Hw Hlist']; intros Heq.
  - reflexivity.
  - discriminate.
  - discriminate.
  - cbn [append] in Heq. inversion Heq as [Htail].
    destruct (element_end _ _ _ _ Hv Hw Htail) as [-> Hrest].
    f_equal. now apply later_elements.
Qed.

Lemma ListAsPrettyString_quote_free_injective_witness :
  ["apple"; "banana"] = ["apple"; "banana"].
Proof.
  apply ListAsPrettyString_quote_free_injective;
    [repeat constructor | repeat constructor | reflexivity].
Defined.

Lemma formatBox_negative_count_iff_witness :
  formatBox plain DefaultLogger "hi" "T" plain noon
  = Panic "strings: negative Repeat count".
Proof.
  refine (proj1 (formatBox_negative_count_iff plain DefaultLogger "hi" "T"
                                              plain noon _ _) _).
  - simpl. lia.
  - unfold fits. vm_compute. discriminate.
  - split; [reflexivity | vm_compute; reflexivity].
Defined.

Lemma NewLogger_logger_no_negative_count_witness :
  formatBox plain (NewLogger false 0) "ok" "" (categoryColor plain plain plain plain
                                                              plain plain CError) noon
  <> Panic "strings: negative Repeat count" /\
  Logger_method plain plain plain plain plain plain plain
                CError (NewLogger false 0) "ok" [] noon
  <> Panic "strings: negative Repeat count".
Proof.
  refine (NewLogger_logger_no_negative_count plain plain plain plain plain plain plain
                                             false 0 CError "ok" [] noon _ _).
  - now left.
  - unfold fits. vm_compute. discriminate.
Defined.

Lemma ReadableCount_groups_of_three_witness :
  String.get 0 (ReadableCount 123456) <> Some ","%char.
Proof.
  refine (proj1 (proj2 (ReadableCount_groups_of_three 123456 _))). lia.
Defined.

(** Lines of text, each closed by a line break, come apart again at the
    line breaks. *)
Lemma Split_first_line (line rest : string) :
  singleLine line = true ->
  Split (line ++ nl ++ rest) newline = line :: Split rest newline.
Proof.
  induction line as [|c line IH]; intros Hline.
  - reflexivity.
  - simpl in Hline. apply andb_true_iff in Hline as [Hc Hline].
    apply negb_true_iff in Hc. cbn [append Split]. rewrite Hc.
    now rewrite (IH Hline).
Qed.

Lemma Split_lines (lines : list string) :
  Forall (fun line => singleLine line = true) lines ->
  Split (catAll (map (fun line => line ++ nl) lines)) newline = (lines ++ [""])%list.
Proof.
  induction 1 as [|line lines Hline Hlines IH]; [reflexivity|].
  cbn [map catAll fold_right]. fold (catAll (map (fun line => line ++ nl) lines)).
  rewrite append_assoc, (Split_first_line _ _ Hline), IH. reflexivity.
Qed.

(** X5.  PrintList writes the piece [n: item] and a line break for each
    element, numbered from 1 in the order of the list, and nothing for
    the empty list; when no element holds a line break, the output is
    exactly one line per element (the lines [n: item], and nothing after
    the last line break). *)
Theorem PrintList_lines (list : Datatypes.list string) :
  PrintList list
  = catAll (map (fun i => decimal (Z.of_nat i + 1) ++ ": " ++ nth i list "" ++ nl)
                (seq 0 (List.length list))) /\
  (Forall (fun item => singleLine item = true) list ->
   Split (PrintList list) newline
   = app (map (fun i => decimal (Z.of_nat i + 1) ++ ": " ++ nth i list "")
              (seq 0 (List.length list)))
         [""]).
Proof.
  split; [apply PrintList_pieces|].
  intros Hitems. rewrite PrintList_pieces.
  rewrite <- (Split_lines
                (map (fun i => decimal (Z.of_nat i + 1) ++ ": " ++ nth i list "")
                     (seq 0 (List.length list)))).
  - rewrite map_map. f_equal. f_equal. apply map_ext. intros i.
    now rewrite !append_assoc.
  - apply Forall_forall. intros line Hin.
    apply in_map_iff in Hin as (i & <- & Hi). apply in_seq in Hi.
    rewrite Forall_forall in Hitems.
    assert (Hitem : singleLine (nth i list "") = true)
      by (apply Hitems, nth_In; lia).
    one_line.
Qed.

Lemma PrintList_lines_witness :
  Split (PrintList ["apple"; "banana"; "cherry"]) newline
  = ["1: apple"; "2: banana"; "3: cherry"; ""].
Proof.
  refine (proj2 (PrintList_lines ["apple"; "banana"; "cherry"]) _).
  repeat constructor.
Defined.

Section TaggedBox.

Variables infoColor tagColor : string -> string.

(** C6 (the code departs from it).  The default logger asked for a box
    around "hi" with the tag "T": the width before padding is
    max(2, 1 + 4) = 5 and the interior 7, one short of the timestamp, so
    the timestamp row asks for -1 spaces and formatBox panics: there is
    no box and no top border carrying the tag. *)
Theorem tagged_short_message_panics (colorFunc : string -> string) (now : Time) :
  contentWidth "hi" "T" = Z.max (longest (Split "hi" newline)) (len "T" + 4) /\
  contentWidth "hi" "T" = 5 /\
  interiorWidth DefaultLogger "hi" "T" = 7 /\
  Repeat " " (sub 7 (len (Format_150405 now))) = Panic "strings: negative Repeat count" /\
  formatBox tagColor DefaultLogger "hi" "T" colorFunc now
  = Panic "strings: negative Repeat count" /\
  Info infoColor tagColor "hi" ["T"] now = Panic "strings: negative Repeat count".
Proof. repeat split; reflexivity. Qed.

End TaggedBox.
